(** * The PBR shaders of [src/shader/pbr.frag.ts] and their driver

    The fragment shader is a pure function from its uniforms and varyings
    to [outFragColor].  It is embedded function by function, keeping the
    source's names, over two semantics of GLSL's [float].

    - Exact reals ([float], [vec3], ...): a [float] is a real number, or
      [None] when it is the result of an operation that GLSL leaves
      undefined: a division by zero, [pow] with a negative base (or base
      0 and exponent <= 0), [sqrt] of a negative number.  An undefined
      operand makes the result of every operation undefined.  This
      semantics fixes which formula each function evaluates and where the
      formula itself is undefined; it has no rounding, overflow or
      underflow, so a theorem about it is a statement about the formulas
      of the shader.
    - binary32 ([B32.float], [B32.vec3], ...): [precision highp float] as
      IEEE 754 single precision, with [+], [-], [*], [/] and [sqrt]
      rounded to nearest even (the operations of the standard library's
      [SpecFloat] at precision 24).  [None] is again an undefined result:
      the operations above, and a NaN.  Infinities are values.  [dot],
      [length] and [normalize] are their defining formulas, evaluated
      from left to right; [pow] on a non-negative base, whose precision
      GLSL leaves to the implementation, is a parameter [pow_impl].
      The statements about the numbers that the shader really produces
      (a divisor that rounds to zero, a result outside a range) are made
      in this semantics.

    In both, [vec3] is a triple of floats; [vec4] is an [rgb] triple and
    an alpha; arithmetic on vectors is component-wise, as in GLSL, and
    the built-in functions follow their definitions in the GLSL
    specification ([normalize(x) = x / length(x)], [mix(x, y, a) =
    x * (1 - a) + y * a], ...).  [int] values are integers of [Z]; the
    only ones in the shader are the loop counter (0..10), array indices
    (0..29) and [uLightCount], which is only compared.

    Layout: the GLSL values and the shader over exact reals; the real
    vectors that a defined [vec3] denotes; the formulas of the
    specification ([Spec]); the vertex shader and the driver; the shader
    in binary32 ([B32]); the value of each shader function where it is
    defined; then the properties, component by component.  The shader
    writes 3.14159 where the specification writes pi: [Spec.pi] is that
    constant. *)

From Stdlib Require Import Reals Lra Psatz List ZArith Lia.
From Stdlib Require Import SpecFloat.
Import ListNotations.
Open Scope R_scope.

(** ** Scalars, over exact reals *)

Definition float := option R.

Declare Scope glsl_scope.
Delimit Scope glsl_scope with glsl.

Definition lift2 (op : R -> R -> R) (a b : float) : float :=
  match a, b with
  | Some x, Some y => Some (op x y)
  | _, _ => None
  end.

Definition fadd : float -> float -> float := lift2 Rplus.
Definition fsub : float -> float -> float := lift2 Rminus.
Definition fmul : float -> float -> float := lift2 Rmult.

(** [a / b]; undefined when [b] is zero. *)
Definition fdiv (a b : float) : float :=
  match a, b with
  | Some x, Some y => if Req_dec_T y 0 then None else Some (x / y)
  | _, _ => None
  end.

(** [max(x, y)]: "returns y if x < y, otherwise it returns x". *)
Definition fmax : float -> float -> float :=
  lift2 (fun x y => if Rlt_dec x y then y else x).

(** [sqrt(x)]; undefined when [x < 0]. *)
Definition fsqrt (a : float) : float :=
  match a with
  | Some x => if Rlt_dec x 0 then None else Some (sqrt x)
  | None => None
  end.

(** [pow(x, y)]; undefined when [x < 0], and when [x = 0] and [y <= 0]. *)
Definition fpow (a b : float) : float :=
  match a, b with
  | Some x, Some y =>
      if Rlt_dec x 0 then None
      else if Req_dec_T x 0 then (if Rlt_dec 0 y then Some 0 else None)
      else Some (Rpower x y)
  | _, _ => None
  end.

(** [float(x <= y)] as the shader uses it: 1.0 when the comparison holds,
    0.0 otherwise ([vec3(lessThanEqual(..))]). *)
Definition fle (a b : float) : float :=
  lift2 (fun x y => if Rle_dec x y then 1 else 0) a b.

Notation "a +@ b" := (fadd a b) (at level 50, left associativity) : glsl_scope.
Notation "a -@ b" := (fsub a b) (at level 50, left associativity) : glsl_scope.
Notation "a *@ b" := (fmul a b) (at level 40, left associativity) : glsl_scope.
Notation "a /@ b" := (fdiv a b) (at level 40, left associativity) : glsl_scope.
Notation "# r" := (Some r : float) (at level 9, r at level 9, format "# r") : glsl_scope.

Open Scope glsl_scope.

(** ** Vectors *)

Record vec3 := mkvec3 { vx : float; vy : float; vz : float }.
Record vec4 := mkvec4 { rgb : vec3; alpha : float }.

(** A vector with three defined components. *)
Definition v3 (x y z : R) : vec3 := mkvec3 #x #y #z.

(** [vec3(s)] *)
Definition splat (s : float) : vec3 := mkvec3 s s s.

Definition vmap2 (op : float -> float -> float) (u v : vec3) : vec3 :=
  mkvec3 (op (vx u) (vx v)) (op (vy u) (vy v)) (op (vz u) (vz v)).

(** vector (op) vector, vector (op) scalar and scalar (op) vector *)
Definition vadd : vec3 -> vec3 -> vec3 := vmap2 fadd.
Definition vsub : vec3 -> vec3 -> vec3 := vmap2 fsub.
Definition vmul : vec3 -> vec3 -> vec3 := vmap2 fmul.
Definition vdiv : vec3 -> vec3 -> vec3 := vmap2 fdiv.
Definition vscale (v : vec3) (s : float) : vec3 := vmul v (splat s).
Definition vdivs (v : vec3) (s : float) : vec3 := vdiv v (splat s).
Definition ssubv (s : float) (v : vec3) : vec3 := vsub (splat s) v.

(** [dot(x, y) = x[0]*y[0] + x[1]*y[1] + x[2]*y[2]] *)
Definition dot (u v : vec3) : float :=
  vx u *@ vx v +@ vy u *@ vy v +@ vz u *@ vz v.

(** [length(x) = sqrt(dot(x, x))] *)
Definition length (v : vec3) : float := fsqrt (dot v v).

(** [normalize(x) = x / length(x)] *)
Definition normalize (v : vec3) : vec3 := vdivs v (length v).

(** [pow(x, y)] and [lessThanEqual(x, y)] on vectors *)
Definition vpow : vec3 -> vec3 -> vec3 := vmap2 fpow.
Definition lessThanEqual : vec3 -> vec3 -> vec3 := vmap2 fle.

(** [mix(x, y, a) = x * (1 - a) + y * a], with a vector or a scalar [a] *)
Definition vmix (x y a : vec3) : vec3 :=
  vadd (vmul x (ssubv #1 a)) (vmul y a).
Definition mix (x y : vec3) (a : float) : vec3 := vmix x y (splat a).

(** ** The shader *)

Definition MAX_LIGHTS : Z := 10.

Record Material := mkMaterial { albedo : vec3 }.

Record PointLight := mkPointLight {
  pos : vec3;
  color : vec3;
  intensity : float
}.

Definition sRGBToLinear (value : vec4) : vec4 :=
  mkvec4
    (vmix (vpow (vadd (vscale (rgb value) #0.9478672986) (splat #0.0521327014))
                (splat #2.4))
          (vscale (rgb value) #0.0773993808)
          (lessThanEqual (rgb value) (splat #0.04045)))
    (alpha value).

Definition LinearTosRGB (value : vec4) : vec4 :=
  mkvec4
    (vmix (vsub (vscale (vpow (rgb value) (splat #0.41666)) #1.055)
                (splat #0.055))
          (vscale (rgb value) #12.92)
          (lessThanEqual (rgb value) (splat #0.0031308)))
    (alpha value).

(** The divisor [4.0 * 3.14159 * distance * distance] of [calculatePointLight]. *)
Definition pointLightDenom (light : PointLight) (position : vec3) : float :=
  let w_i := vsub (pos light) position in
  let distance := length w_i in
  #4.0 *@ #3.14159 *@ distance *@ distance.

Definition calculatePointLight (light : PointLight) (position : vec3) : vec3 :=
  vscale (color light) (intensity light /@ pointLightDenom light position).

(** Reinhard tonemapping *)
Definition tonemap (color : vec3) : vec3 :=
  vdiv color (vadd color (splat #1.0)).

(** Lambertian BRDF *)
Definition calculateDiffuseBRDF (albedo : vec3) : vec3 :=
  vdivs albedo #3.14159.

(** The two assignments to the local [denom] of [calculateDistributionGGX]. *)
Definition ggxDenom (normal halfVector : vec3) (roughness : float) : float :=
  let a2 := roughness *@ roughness in
  let nDotH := fmax (dot normal halfVector) #0.0 in
  let nDotH2 := nDotH *@ nDotH in
  let denom := nDotH2 *@ (a2 -@ #1.0) +@ #1.0 in
  #3.14159 *@ denom *@ denom.

Definition calculateDistributionGGX (normal halfVector : vec3) (roughness : float)
  : float :=
  let a2 := roughness *@ roughness in
  let denom := ggxDenom normal halfVector roughness in
  a2 /@ denom.

Definition calculateGeometrySchlick (normal dir : vec3) (k : float) : float :=
  let ndot := fmax (dot normal dir) #0.0 in
  ndot /@ (ndot *@ (#1.0 -@ k) +@ k).

Definition calculateGeometrySmith (normal w_i w_o : vec3) (k : float) : float :=
  calculateGeometrySchlick normal w_i k *@ calculateGeometrySchlick normal w_o k.

Definition calculateFresnelSchlick (w_i w_o F0 : vec3) : vec3 :=
  let h := normalize (vadd w_i w_o) in
  let VoH := fmax (dot w_o h) #0.0 in
  vadd F0 (vscale (ssubv #1.0 F0) (fpow (#1.0 -@ VoH) #5.0)).

(** [F] is computed by the source and not used in the returned value. *)
Definition calculateSpecularBRDF (albedo normal w_o w_i : vec3)
    (roughness metallic : float) (F0 : vec3) : vec3 :=
  let k := ((roughness +@ #1.0) *@ (roughness +@ #1.0)) /@ #8.0 in
  let D := calculateDistributionGGX normal (normalize (vadd w_i w_o)) roughness in
  let F := calculateFresnelSchlick w_i w_o F0 in
  let G := calculateGeometrySmith normal w_i w_o k in
  splat ((D *@ G) /@
         (#4.0 *@ fmax (dot w_o normal) #0.00001 *@ fmax (dot w_i normal) #0.00001)).

Definition calculateBRDF (light : PointLight) (position normal w_o : vec3)
    (roughness metallic : float) (albedo : vec3) : vec3 :=
  let w_i := normalize (vsub (pos light) position) in
  let F0 := mix (splat #0.04) albedo metallic in
  let kS := calculateFresnelSchlick w_i w_o F0 in
  let specularBRDF :=
    vmul kS (calculateSpecularBRDF albedo normal w_o w_i roughness metallic F0) in
  let diffuseBRDF :=
    vscale (vmul (vsub (splat #1.0) kS) (calculateDiffuseBRDF albedo))
           (#1.0 -@ metallic) in
  vscale (vmul (vadd diffuseBRDF specularBRDF) (calculatePointLight light position))
         (fmax (dot normal w_i) #0.0).

(** The product [(diffuseBRDF + specularBRDF) * calculatePointLight(light,
    position)] of [calculateBRDF], which the source then multiplies by
    [max(dot(normal, w_i), 0.0)]. *)
Definition brdfTimesIrradiance (light : PointLight) (position normal w_o : vec3)
    (roughness metallic : float) (albedo : vec3) : vec3 :=
  let w_i := normalize (vsub (pos light) position) in
  let F0 := mix (splat #0.04) albedo metallic in
  let kS := calculateFresnelSchlick w_i w_o F0 in
  let specularBRDF :=
    vmul kS (calculateSpecularBRDF albedo normal w_o w_i roughness metallic F0) in
  let diffuseBRDF :=
    vscale (vmul (vsub (splat #1.0) kS) (calculateDiffuseBRDF albedo))
           (#1.0 -@ metallic) in
  vmul (vadd diffuseBRDF specularBRDF) (calculatePointLight light position).

(** *** Uniforms, varyings and [main] *)

(** A uniform array [float name[size]] holds [size] floats; entries the
    driver did not upload keep the default 0.  Reading outside
    [0 .. size-1] is undefined. *)
Definition arrayGet (size : Z) (arr : list float) (k : Z) : float :=
  if andb (0 <=? k)%Z (k <? size)%Z then nth (Z.to_nat k) arr #0 else None.

Record Uniforms := mkUniforms {
  uMaterial : Material;
  uLightCount : Z;
  uLightPositions : list float;   (* float[MAX_LIGHTS * 3] *)
  uLightColors : list float;      (* float[MAX_LIGHTS * 3] *)
  uLightIntensities : list float; (* float[MAX_LIGHTS] *)
  roughness : float;
  metallic : float
}.

Record Varyings := mkVaryings {
  vPositionWS : vec3;
  vNormalWS : vec3;
  ViewDirectionWS : vec3
}.

(** The [PointLight light] that the loop body builds at index [i]. *)
Definition lightAt (u : Uniforms) (i : Z) : PointLight :=
  {| pos := mkvec3 (arrayGet (MAX_LIGHTS * 3) (uLightPositions u) (i * 3))
                   (arrayGet (MAX_LIGHTS * 3) (uLightPositions u) (i * 3 + 1))
                   (arrayGet (MAX_LIGHTS * 3) (uLightPositions u) (i * 3 + 2));
     color := mkvec3 (arrayGet (MAX_LIGHTS * 3) (uLightColors u) (i * 3))
                     (arrayGet (MAX_LIGHTS * 3) (uLightColors u) (i * 3 + 1))
                     (arrayGet (MAX_LIGHTS * 3) (uLightColors u) (i * 3 + 2));
     intensity := arrayGet MAX_LIGHTS (uLightIntensities u) i |}.

(** [for (int i = 0; i < MAX_LIGHTS; i++) { if (i >= uLightCount) break; .. }]
    from the state [(i, irradiance)].  [fuel] bounds the number of
    iterations; [lightLoop_fuel] shows that [MAX_LIGHTS - i] is enough. *)
Fixpoint lightLoop (fuel : nat) (u : Uniforms) (v : Varyings)
    (normal w_o albedo : vec3) (i : Z) (irradiance : vec3) : vec3 :=
  match fuel with
  | O => irradiance
  | S fuel' =>
      if (i <? MAX_LIGHTS)%Z then
        if (i >=? uLightCount u)%Z then irradiance
        else
          let light := lightAt u i in
          lightLoop fuel' u v normal w_o albedo (i + 1)
            (vadd irradiance
               (calculateBRDF light (vPositionWS v) normal w_o
                  (roughness u) (metallic u) albedo))
      else irradiance
  end.

(** The value of [irradiance] when the loop of [main] ends. *)
Definition mainIrradiance (u : Uniforms) (v : Varyings) : vec3 :=
  let albedo := rgb (sRGBToLinear (mkvec4 (albedo (uMaterial u)) #1.0)) in
  let w_o := normalize (ViewDirectionWS v) in
  let normal := normalize (vNormalWS v) in
  lightLoop (Z.to_nat MAX_LIGHTS) u v normal w_o albedo 0 (splat #0.0).

(** [main]: the value written to [outFragColor]. *)
Definition main (u : Uniforms) (v : Varyings) : vec4 :=
  let irradiance := mainIrradiance u v in
  let irradiance := tonemap irradiance in
  LinearTosRGB (mkvec4 irradiance #1.0).

(** ** Real vectors: the values of defined [vec3]s *)

Definition R3 : Type := (R * R * R)%type.

Definition vec (a : R3) : vec3 := let '(x, y, z) := a in v3 x y z.

Definition rdot (a b : R3) : R :=
  let '(x, y, z) := a in let '(x', y', z') := b in x * x' + y * y' + z * z'.
Definition radd (a b : R3) : R3 :=
  let '(x, y, z) := a in let '(x', y', z') := b in (x + x', y + y', z + z').
Definition rsub (a b : R3) : R3 :=
  let '(x, y, z) := a in let '(x', y', z') := b in (x - x', y - y', z - z').
Definition rscale (a : R3) (s : R) : R3 :=
  let '(x, y, z) := a in (x * s, y * s, z * s).
Definition rmul (a b : R3) : R3 :=
  let '(x, y, z) := a in let '(x', y', z') := b in (x * x', y * y', z * z').
Definition rnorm (a : R3) : R := sqrt (rdot a a).
Definition runit (a : R3) : R3 :=
  let '(x, y, z) := a in (x / rnorm a, y / rnorm a, z / rnorm a).
Definition rzero : R3 := (0, 0, 0).

(** Every channel of [a] satisfies [P]. *)
Definition channels (P : R -> Prop) (a : R3) : Prop :=
  let '(x, y, z) := a in P x /\ P y /\ P z.

(** [P] relates [a] and [b] channel by channel. *)
Definition channels2 (P : R -> R -> Prop) (a b : R3) : Prop :=
  let '(x, y, z) := a in let '(x', y', z') := b in P x x' /\ P y y' /\ P z z'.

(** ** The formulas of the specification, on the reals

    [pi] is the constant that the shader uses for the specification's
    pi, the literal [3.14159]; [eps] is the guard [1e-5] of the specular
    denominator. *)

Module Spec.

Definition pi : R := 3.14159.
Definition eps : R := 0.00001.

Definition rmap (f : R -> R) (a : R3) : R3 :=
  let '(x, y, z) := a in (f x, f y, f z).

(** Reinhard operator, [c' = c / (c + 1)] *)
Definition reinhard (c : R) : R := c / (c + 1).

(** Inverse-square falloff, [color * intensity / (4 pi d^2)] *)
Definition irradianceAt (lcolor : R3) (lintensity : R) (lpos point : R3) : R3 :=
  let d := rnorm (rsub lpos point) in
  rscale lcolor (lintensity / (4 * pi * d * d)).

(** [D = a2 / (pi * ((n.h)^2 (a2 - 1) + 1)^2)], [n.h] clamped to >= 0 *)
Definition Dden (n h : R3) (rough : R) : R :=
  let a2 := rough * rough in
  let nh := Rmax (rdot n h) 0 in
  pi * ((nh * nh * (a2 - 1) + 1) * (nh * nh * (a2 - 1) + 1)).
Definition D (n h : R3) (rough : R) : R := rough * rough / Dden n h rough.

(** [k = (roughness + 1)^2 / 8] *)
Definition k (rough : R) : R := (rough + 1) * (rough + 1) / 8.

(** [G1(v) = (n.v) / ((n.v)(1 - k) + k)], [n.v] clamped to >= 0 *)
Definition G1den (n v : R3) (k : R) : R :=
  let nv := Rmax (rdot n v) 0 in nv * (1 - k) + k.
Definition G1 (n v : R3) (k : R) : R := Rmax (rdot n v) 0 / G1den n v k.

(** [G = G1(w_i) * G1(w_o)] *)
Definition G (n wi wo : R3) (k : R) : R := G1 n wi k * G1 n wo k.

(** [spec = (D * G) / (4 * max(n.w_o, eps) * max(n.w_i, eps))] *)
Definition specular (n wi wo : R3) (rough : R) : R :=
  let h := runit (radd wi wo) in
  D n h rough * G n wi wo (k rough)
  / (4 * Rmax (rdot n wo) eps * Rmax (rdot n wi) eps).

(** [F0 = lerp(vec3(0.04), albedo, metallic)] *)
Definition F0 (albedo : R3) (metallic : R) : R3 :=
  rmap (fun a => 0.04 * (1 - metallic) + a * metallic) albedo.

(** [F = F0 + (1 - F0) * (1 - max(dot(w_o, h), 0))^5] *)
Definition F (wi wo f0 : R3) : R3 :=
  let h := runit (radd wi wo) in
  let voh := Rmax (rdot wo h) 0 in
  rmap (fun f => f + (1 - f) * (1 - voh) ^ 5) f0.

(** [(diffuse + F * specular) * irradianceAt(light, point) * max(n.w_i, 0)]
    with the diffuse term [albedo / pi] weighted by [(1 - F) * (1 - metallic)] *)
Definition evaluate (lcolor : R3) (lintensity : R) (lpos point n wo : R3)
    (rough metallic : R) (albedo : R3) : R3 :=
  let wi := runit (rsub lpos point) in
  let f := F wi wo (F0 albedo metallic) in
  let diffuse :=
    rscale (rmul (rmap (fun x => 1 - x) f) (rmap (fun a => a / pi) albedo))
           (1 - metallic) in
  rscale (rmul (radd diffuse (rscale f (specular n wi wo rough)))
               (irradianceAt lcolor lintensity lpos point))
         (Rmax (rdot n wi) 0).

(** *** The shading pipeline (section 4.5 of the specification) *)

(** The light sequence: the [MAX_LIGHTS] slots of the uniform arrays. *)
Definition lights (u : Uniforms) : list PointLight :=
  map (fun i => lightAt u (Z.of_nat i)) (seq 0 (Z.to_nat MAX_LIGHTS)).

(** [ColorSpace.decode] and [ColorSpace.encode] on RGB triples *)
Definition decode (c : vec3) : vec3 := rgb (sRGBToLinear (mkvec4 c #1.0)).
Definition encode (c : vec3) : vec3 := rgb (LinearTosRGB (mkvec4 c #1.0)).

(** Step 2: the sum over the active lights of [BRDFEvaluator.evaluate]. *)
Definition irradiance (evaluate : PointLight -> vec3) (activeLights : list PointLight)
  : vec3 :=
  fold_left (fun acc light => vadd acc (evaluate light)) activeLights (splat #0.0).

(** [shade(surfaceSample, material, activeLights)]: decode, sum, tone
    map, encode, alpha forced to 1. *)
Definition shade (worldPosition worldNormal viewDirection : vec3)
    (albedo : vec3) (roughness metallic : float) (activeLights : list PointLight)
  : vec4 :=
  let albedoLinear := decode albedo in
  let irr :=
    irradiance (fun light => calculateBRDF light worldPosition worldNormal
                               viewDirection roughness metallic albedoLinear)
               activeLights in
  let toneMapped := tonemap irr in
  mkvec4 (encode toneMapped) #1.0.

End Spec.

(** ** The loop body, the channel functions and concrete inputs *)

(** [BRDFEvaluator.evaluate] as the loop body calls it. *)
Definition evaluateLight (u : Uniforms) (v : Varyings) (normal w_o albedo : vec3)
    (light : PointLight) : vec3 :=
  calculateBRDF light (vPositionWS v) normal w_o (roughness u) (metallic u) albedo.

(** The number of iterations that run their body. *)
Definition activeCount (u : Uniforms) : nat :=
  Z.to_nat (Z.min (uLightCount u) MAX_LIGHTS).

(** The uniforms [u] with another value of [uLightCount]. *)
Definition withLightCount (u : Uniforms) (n : Z) : Uniforms :=
  mkUniforms (uMaterial u) n (uLightPositions u) (uLightColors u)
    (uLightIntensities u) (roughness u) (metallic u).

(** [BRDFEvaluator.evaluate] with the arguments that [main] passes. *)
Definition mainEvaluate (u : Uniforms) (v : Varyings) : PointLight -> vec3 :=
  evaluateLight u v (normalize (vNormalWS v)) (normalize (ViewDirectionWS v))
    (Spec.decode (albedo (uMaterial u))).

(** The value of one channel of [sRGBToLinear] and of [LinearTosRGB]. *)
Definition decodeChannel (c : R) : R :=
  if Rle_dec c 0.04045 then c * 0.0773993808
  else Rpower (c * 0.9478672986 + 0.0521327014) 2.4.

Definition encodeChannel (c : R) : R :=
  if Rle_dec c 0.0031308 then c * 12.92
  else Rpower c 0.41666 * 1.055 - 0.055.

(** A channel that is exactly zero wherever it is defined. *)
Definition zeroOrUndefined (f : float) : Prop := f = None \/ f = #0.

Definition allZeroOrUndefined (v : vec3) : Prop :=
  zeroOrUndefined (vx v) /\ zeroOrUndefined (vy v) /\ zeroOrUndefined (vz v).

(** The unit vector along the z axis, used as normal, view and light
    direction of the head-on configuration. *)
Definition up : R3 := (0, 0, 1).


(** The end-to-end scenario of the specification: a light of colour
    (1,1,1) and intensity 2000 at (0,0,5), seen head-on from the origin. *)
Definition lightAbove : R3 := (0, 0, 5).

(** The uniforms that the application uploads: four white lights of
    intensity 2000 at (+-10, +-10, 10), a white albedo, roughness 0.5 and
    metallic 0; and a fragment at the origin facing the camera. *)
Definition appUniforms : Uniforms :=
  mkUniforms (mkMaterial (vec (1, 1, 1))) 4
    [ #(-10); #10; #10;  #10; #10; #10;  #(-10); #(-10); #10;  #10; #(-10); #10 ]
    [ #1; #1; #1;  #1; #1; #1;  #1; #1; #1;  #1; #1; #1 ]
    [ #2000; #2000; #2000; #2000 ]
    #0.5 #0.

Definition appVaryings : Varyings := mkVaryings (vec rzero) (vec up) (vec up).

(** ** The vertex shader

    [vec4] values are read as [(xyz, w)]: [rgb] is the [.xyz] swizzle and
    [alpha] the [.w] component.  A [mat4] is its four columns, and
    [m * v] is the linear combination of the columns of [m] with the
    components of [v]. *)

Definition vec4add (a b : vec4) : vec4 :=
  mkvec4 (vadd (rgb a) (rgb b)) (alpha a +@ alpha b).
Definition vec4sub (a b : vec4) : vec4 :=
  mkvec4 (vsub (rgb a) (rgb b)) (alpha a -@ alpha b).
Definition vec4scale (a : vec4) (s : float) : vec4 :=
  mkvec4 (vscale (rgb a) s) (alpha a *@ s).

Record mat4 := mkmat4 { col0 : vec4; col1 : vec4; col2 : vec4; col3 : vec4 }.

(** [m * v] *)
Definition mat4mulv (m : mat4) (v : vec4) : vec4 :=
  vec4add
    (vec4add
       (vec4add (vec4scale (col0 m) (vx (rgb v))) (vec4scale (col1 m) (vy (rgb v))))
       (vec4scale (col2 m) (vz (rgb v))))
    (vec4scale (col3 m) (alpha v)).

(** [a * b] *)
Definition mat4mul (a b : mat4) : mat4 :=
  mkmat4 (mat4mulv a (col0 b)) (mat4mulv a (col1 b))
         (mat4mulv a (col2 b)) (mat4mulv a (col3 b)).

Module Vertex.

Record Camera := mkCamera {
  WS_to_CS : mat4; (* World-Space to Clip-Space (proj * view) *)
  pos : vec3
}.

Record Model := mkModel {
  LS_to_WS : mat4 (* Local-Space to World-Space *)
}.

(** What [main] writes; [lightImpact] is declared and never written. *)
Record Outputs := mkOutputs {
  gl_Position : vec4;
  vPositionWS : vec3;
  vNormalWS : vec3;
  ViewDirectionWS : vec3
}.

Definition main (uCamera : Camera) (uModel : Model) (in_position in_normal : vec3)
  : Outputs :=
  let positionLocal := mkvec4 in_position #1.0 in
  let positionWS4 := mat4mulv (LS_to_WS uModel) positionLocal in
  {| vPositionWS := rgb positionWS4;
     gl_Position :=
       mat4mulv (mat4mul (WS_to_CS uCamera) (LS_to_WS uModel)) positionLocal;
     vNormalWS :=
       normalize (rgb (mat4mulv (LS_to_WS uModel) (mkvec4 in_normal #0.0)));
     ViewDirectionWS :=
       normalize
         (rgb (vec4sub (mkvec4 (pos uCamera) #1.0)
                       (mat4mulv (LS_to_WS uModel) (mkvec4 in_position #1.0)))) |}.

End Vertex.

(** A [mat4] of real entries, column by column, and the matrix that
    [mat4.fromTranslation] of the driver builds for a translation [t]. *)
Definition vec4r (a : R3) (w : R) : vec4 := mkvec4 (vec a) #w.

Definition translation (t : R3) : mat4 :=
  mkmat4 (vec4r (1, 0, 0) 0) (vec4r (0, 1, 0) 0) (vec4r (0, 0, 1) 0) (vec4r t 1).

(** The [mat4] whose columns are the four given real columns [(xyz, w)]. *)
Definition rmat (c0 c1 c2 c3 : R3 * R) : mat4 :=
  mkmat4 (vec4r (fst c0) (snd c0)) (vec4r (fst c1) (snd c1))
         (vec4r (fst c2) (snd c2)) (vec4r (fst c3) (snd c3)).

(** ** The driver: what [Application] uploads

    JavaScript numbers and [Float32Array] entries are real numbers here
    (no rounding).  A [Float32Array] is a list of fixed length: a write
    outside it is ignored, as typed arrays do. *)

Module App.

Record PointLight := mkPointLight {
  positionWS : R3;
  color : R3;
  intensity : R
}.

(** [v[0]], [v[1]], [v[2]] of a [vec3] of gl-matrix *)
Definition at0 (a : R3) : R := fst (fst a).
Definition at1 (a : R3) : R := snd (fst a).
Definition at2 (a : R3) : R := snd a.

(** [new Float32Array(n)]: [n] zeros *)
Definition newFloat32Array (n : nat) : list R := repeat 0 n.

(** [arr[k] = x] *)
Fixpoint setIndex (arr : list R) (k : nat) (x : R) : list R :=
  match arr, k with
  | [], _ => []
  | _ :: rest, O => x :: rest
  | a :: rest, S k' => a :: setIndex rest k' x
  end.

(** The body of [this._lights.forEach((light, index) => ..)] in [render],
    on the three arrays [(positions, colors, intensities)]. *)
Definition storeLight (arrays : list R * list R * list R) (light : PointLight)
    (index : nat) : list R * list R * list R :=
  let '(positions, colors, intensities) := arrays in
  let positions := setIndex positions (index * 3) (at0 (positionWS light)) in
  let positions := setIndex positions (index * 3 + 1) (at1 (positionWS light)) in
  let positions := setIndex positions (index * 3 + 2) (at2 (positionWS light)) in
  let colors := setIndex colors (index * 3) (at0 (color light)) in
  let colors := setIndex colors (index * 3 + 1) (at1 (color light)) in
  let colors := setIndex colors (index * 3 + 2) (at2 (color light)) in
  let intensities := setIndex intensities index (intensity light) in
  (positions, colors, intensities).

(** [lights.forEach(f)] from the index [start] *)
Fixpoint forEachFrom (lights : list PointLight) (start : nat)
    (arrays : list R * list R * list R) : list R * list R * list R :=
  match lights with
  | [] => arrays
  | light :: rest => forEachFrom rest (S start) (storeLight arrays light start)
  end.

(** The light arrays that [render] builds, [(positions, colors, intensities)]. *)
Definition lightArrays (lights : list PointLight) : list R * list R * list R :=
  let lightCount := List.length lights in
  forEachFrom lights 0
    (newFloat32Array (lightCount * 3), newFloat32Array (lightCount * 3),
     newFloat32Array lightCount).

(** The grid of [rows] x [columns] spheres. *)
Definition rows : Z := 5.
Definition columns : Z := 5.

(** An entry of [this._sphereProperties]: the properties of one sphere.
    The constructor fills the table, the sliders of the GUI change its
    entries, and [render] reads them. *)
Record SphereProperties := mkSphereProperties {
  roughness : R;
  metallic : R
}.

(** The table that the constructor builds. *)
Definition initialSphereProperties (r c : Z) : SphereProperties :=
  {| roughness := 0.01 + (IZR c / IZR (columns - 1)) * 0.99;
     metallic := IZR r / IZR (rows - 1) |}.

(** The translation of the sphere of row [r] and column [c] in [render],
    for a sphere geometry of the given radius. *)
Definition sphereTranslation (radius : R) (r c : Z) : R3 :=
  let spacing := radius * 2.5 in
  ((IZR c - IZR columns * 0.5) * spacing + spacing * 0.5,
   (IZR r - IZR rows * 0.5) * spacing + spacing * 0.5,
   0.0).

(** The fragment shader's uniforms at the draw call of the sphere
    [(r, c)]: the albedo of the GUI (three numbers in 0..255) divided by
    255, the entry of the sphere in the table [sphereProperties] as it is
    when [render] runs, and the light arrays. *)
Definition uniformsAt (guiAlbedo : R3) (lights : list PointLight)
    (sphereProperties : Z -> Z -> SphereProperties) (r c : Z) : Uniforms :=
  let '(positions, colors, intensities) := lightArrays lights in
  mkUniforms
    (mkMaterial (v3 (at0 guiAlbedo / 255) (at1 guiAlbedo / 255) (at2 guiAlbedo / 255)))
    (Z.of_nat (List.length lights))
    (map Some positions) (map Some colors) (map Some intensities)
    #(roughness (sphereProperties r c)) #(metallic (sphereProperties r c)).

(** The four lights of the constructor. *)
Definition initialLights : list PointLight :=
  [ mkPointLight (-10, 10, 10) (1, 1, 1) 2000.0;
    mkPointLight (10, 10, 10) (1, 1, 1) 2000.0;
    mkPointLight (-10, -10, 10) (1, 1, 1) 2000.0;
    mkPointLight (10, -10, 10) (1, 1, 1) 2000.0 ].

End App.

(** The three entries that the driver writes for a [vec3]. *)
Definition triple (a : R3) : list R := [App.at0 a; App.at1 a; App.at2 a].

(** The shader's light that corresponds to a light of the driver. *)
Definition shaderLight (light : App.PointLight) : PointLight :=
  mkPointLight (vec (App.positionWS light)) (vec (App.color light))
    #(App.intensity light).

(** ** The shader in binary32

    [B32.decimal m k] is the binary32 number nearest to the decimal
    literal [m / 10^k] ([B32.lit 314159 5] is the shader's [3.14159],
    [B32.lit 10 1] its [1.0]); [B32.ofBits] reads a number from its bit
    pattern.  The functions are the translations of the same source lines
    as above, with the binary32 operations in place of the real ones. *)

Module B32.

(** binary32: 24 bits of precision, exponents below 128 *)
Definition prec : Z := 24.
Definition emax : Z := 128.

(** A [float] is a binary32 number (a zero, an infinity or a finite
    number, with its sign), or [None] when it is undefined. *)
Definition float := option spec_float.

(** The result of an IEEE operation as a GLSL value: a NaN is no value. *)
Definition value (x : spec_float) : float :=
  match x with
  | S754_nan => None
  | _ => Some x
  end.

Definition isZero (x : spec_float) : bool :=
  match x with
  | S754_zero _ => true
  | _ => false
  end.

Definition isFinite (x : spec_float) : bool :=
  match x with
  | S754_zero _ | S754_finite _ _ _ => true
  | _ => false
  end.

Definition zero : spec_float := S754_zero false.

(** [2 ^ e], for [e] in the range of normal numbers *)
Definition pow2 (e : Z) : spec_float := S754_finite false 8388608 (e - 23).

(** The decimal literal [m / 10 ^ k], rounded to nearest even: the
    correctly rounded quotient of the two integers. *)
Definition decimal (m k : Z) : spec_float :=
  match m with
  | Z0 => zero
  | Zpos p =>
      SFdiv prec emax (S754_finite false p 0) (S754_finite false (Z.to_pos (10 ^ k)) 0)
  | Zneg p =>
      SFdiv prec emax (S754_finite true p 0) (S754_finite false (Z.to_pos (10 ^ k)) 0)
  end.

(** [x] is a normal number within half a unit in the last place of
    [m / 10 ^ k] (or the zero that [m = 0] denotes), by integer
    arithmetic alone. *)
Definition nearestTo (x : spec_float) (m k : Z) : bool :=
  match x with
  | S754_finite s mx ex =>
      let n := (if s then - Zpos mx else Zpos mx)%Z in
      andb (8388608 <=? Zpos mx)%Z
        (if (ex <? 0)%Z
         then (2 * Z.abs (n * 10 ^ k - m * 2 ^ (- ex)) <=? 10 ^ k)%Z
         else (2 * Z.abs (n * 2 ^ ex * 10 ^ k - m) <=? 2 ^ ex * 10 ^ k)%Z)
  | S754_zero _ => (m =? 0)%Z
  | _ => false
  end.

(** The number with the bit pattern [b]: sign, 8 bits of exponent, 23
    bits of fraction. *)
Definition ofBits (b : Z) : spec_float :=
  let s := Z.testbit b 31 in
  let e := Z.land (Z.shiftr b 23) 255 in
  let f := Z.land b 8388607 in
  if (e =? 0)%Z then
    match f with
    | Zpos p => S754_finite s p (-149)
    | _ => S754_zero s
    end
  else if (e =? 255)%Z then (if (f =? 0)%Z then S754_infinity s else S754_nan)
  else S754_finite s (Z.to_pos (8388608 + f)) (e - 150).

Definition lift2 (op : spec_float -> spec_float -> spec_float) (a b : float) : float :=
  match a, b with
  | Some x, Some y => value (op x y)
  | _, _ => None
  end.

Definition fadd : float -> float -> float := lift2 (SFadd prec emax).
Definition fsub : float -> float -> float := lift2 (SFsub prec emax).
Definition fmul : float -> float -> float := lift2 (SFmul prec emax).

(** [a / b]; undefined when [b] is a zero. *)
Definition fdiv (a b : float) : float :=
  match a, b with
  | Some x, Some y => if isZero y then None else value (SFdiv prec emax x y)
  | _, _ => None
  end.

(** [max(x, y)]: "returns y if x < y, otherwise it returns x". *)
Definition fmax : float -> float -> float :=
  lift2 (fun x y => if SFltb x y then y else x).

(** [sqrt(x)]; undefined when [x < 0]. *)
Definition fsqrt (a : float) : float :=
  match a with
  | Some x => if SFltb x zero then None else value (SFsqrt prec emax x)
  | None => None
  end.

(** A literal of the source: [lit 314159 5] is [3.14159], [lit 10 1] is
    [1.0], [lit 1 5] is [0.00001]. *)
Definition lit (m k : Z) : float := Some (decimal m k).

Declare Scope b32_scope.
Delimit Scope b32_scope with b32.

Notation "a +@ b" := (fadd a b) (at level 50, left associativity) : b32_scope.
Notation "a -@ b" := (fsub a b) (at level 50, left associativity) : b32_scope.
Notation "a *@ b" := (fmul a b) (at level 40, left associativity) : b32_scope.
Notation "a /@ b" := (fdiv a b) (at level 40, left associativity) : b32_scope.

Local Open Scope b32_scope.

Record vec3 := mkvec3 { vx : float; vy : float; vz : float }.

(** A vector with three defined components; one with integer components;
    the vector whose components are all undefined. *)
Definition v3 (x y z : spec_float) : vec3 := mkvec3 (Some x) (Some y) (Some z).
Definition ivec (x y z : Z) : vec3 := v3 (decimal x 0) (decimal y 0) (decimal z 0).
Definition undefined : vec3 := mkvec3 None None None.

(** [vec3(s)] *)
Definition splat (s : float) : vec3 := mkvec3 s s s.

Definition vmap2 (op : float -> float -> float) (u v : vec3) : vec3 :=
  mkvec3 (op (vx u) (vx v)) (op (vy u) (vy v)) (op (vz u) (vz v)).

Definition vadd : vec3 -> vec3 -> vec3 := vmap2 fadd.
Definition vsub : vec3 -> vec3 -> vec3 := vmap2 fsub.
Definition vmul : vec3 -> vec3 -> vec3 := vmap2 fmul.
Definition vdiv : vec3 -> vec3 -> vec3 := vmap2 fdiv.
Definition vscale (v : vec3) (s : float) : vec3 := vmul v (splat s).
Definition vdivs (v : vec3) (s : float) : vec3 := vdiv v (splat s).
Definition ssubv (s : float) (v : vec3) : vec3 := vsub (splat s) v.

(** [dot(x, y) = x[0]*y[0] + x[1]*y[1] + x[2]*y[2]], every product and
    sum rounded, from left to right *)
Definition dot (u v : vec3) : float :=
  vx u *@ vx v +@ vy u *@ vy v +@ vz u *@ vz v.

(** [length(x) = sqrt(dot(x, x))] *)
Definition length (v : vec3) : float := fsqrt (dot v v).

(** [normalize(x) = x / length(x)] *)
Definition normalize (v : vec3) : vec3 := vdivs v (length v).

(** [mix(x, y, a) = x * (1 - a) + y * a] *)
Definition vmix (x y a : vec3) : vec3 :=
  vadd (vmul x (ssubv (lit 1 0) a)) (vmul y a).
Definition mix (x y : vec3) (a : float) : vec3 := vmix x y (splat a).

Record PointLight := mkPointLight {
  pos : vec3;
  color : vec3;
  intensity : float
}.

(** The divisor [4.0 * 3.14159 * distance * distance] of [calculatePointLight]. *)
Definition pointLightDenom (light : PointLight) (position : vec3) : float :=
  let w_i := vsub (pos light) position in
  let distance := length w_i in
  lit 40 1 *@ lit 314159 5 *@ distance *@ distance.

Definition calculatePointLight (light : PointLight) (position : vec3) : vec3 :=
  vscale (color light) (intensity light /@ pointLightDenom light position).

(** Reinhard tonemapping *)
Definition tonemap (color : vec3) : vec3 :=
  vdiv color (vadd color (splat (lit 10 1))).

(** Lambertian BRDF *)
Definition calculateDiffuseBRDF (albedo : vec3) : vec3 :=
  vdivs albedo (lit 314159 5).

(** The two assignments to the local [denom] of [calculateDistributionGGX]. *)
Definition ggxDenom (normal halfVector : vec3) (roughness : float) : float :=
  let a2 := roughness *@ roughness in
  let nDotH := fmax (dot normal halfVector) (lit 0 1) in
  let nDotH2 := nDotH *@ nDotH in
  let denom := nDotH2 *@ (a2 -@ lit 10 1) +@ lit 10 1 in
  lit 314159 5 *@ denom *@ denom.

Definition calculateDistributionGGX (normal halfVector : vec3) (roughness : float)
  : float :=
  let a2 := roughness *@ roughness in
  let denom := ggxDenom normal halfVector roughness in
  a2 /@ denom.

Definition calculateGeometrySchlick (normal dir : vec3) (k : float) : float :=
  let ndot := fmax (dot normal dir) (lit 0 1) in
  ndot /@ (ndot *@ (lit 10 1 -@ k) +@ k).

Definition calculateGeometrySmith (normal w_i w_o : vec3) (k : float) : float :=
  calculateGeometrySchlick normal w_i k *@ calculateGeometrySchlick normal w_o k.

(** [x * x * x * x * x]: one way to compute [pow(x, 5.0)], the only
    use of [pow] in these functions. *)
Definition fifthPower (x y : spec_float) : spec_float :=
  SFmul prec emax (SFmul prec emax (SFmul prec emax (SFmul prec emax x x) x) x) x.

Section Pow.

(** What the implementation computes for [pow(x, y)] on a base [x > 0]:
    GLSL does not fix its precision. *)
Variable pow_impl : spec_float -> spec_float -> spec_float.

(** [pow(x, y)]; undefined when [x < 0], and when [x = 0] and [y <= 0]. *)
Definition fpow (a b : float) : float :=
  match a, b with
  | Some x, Some y =>
      if SFltb x zero then None
      else if isZero x then (if SFltb zero y then Some zero else None)
      else value (pow_impl x y)
  | _, _ => None
  end.

Definition calculateFresnelSchlick (w_i w_o F0 : vec3) : vec3 :=
  let h := normalize (vadd w_i w_o) in
  let VoH := fmax (dot w_o h) (lit 0 1) in
  vadd F0 (vscale (ssubv (lit 10 1) F0) (fpow (lit 10 1 -@ VoH) (lit 50 1))).

(** [F] is computed by the source and not used in the returned value. *)
Definition calculateSpecularBRDF (albedo normal w_o w_i : vec3)
    (roughness metallic : float) (F0 : vec3) : vec3 :=
  let k := ((roughness +@ lit 10 1) *@ (roughness +@ lit 10 1)) /@ lit 80 1 in
  let D := calculateDistributionGGX normal (normalize (vadd w_i w_o)) roughness in
  let F := calculateFresnelSchlick w_i w_o F0 in
  let G := calculateGeometrySmith normal w_i w_o k in
  splat ((D *@ G) /@
         (lit 40 1 *@ fmax (dot w_o normal) (lit 1 5) *@ fmax (dot w_i normal) (lit 1 5))).

Definition calculateBRDF (light : PointLight) (position normal w_o : vec3)
    (roughness metallic : float) (albedo : vec3) : vec3 :=
  let w_i := normalize (vsub (pos light) position) in
  let F0 := mix (splat (lit 4 2)) albedo metallic in
  let kS := calculateFresnelSchlick w_i w_o F0 in
  let specularBRDF :=
    vmul kS (calculateSpecularBRDF albedo normal w_o w_i roughness metallic F0) in
  let diffuseBRDF :=
    vscale (vmul (vsub (splat (lit 10 1)) kS) (calculateDiffuseBRDF albedo))
           (lit 10 1 -@ metallic) in
  vscale (vmul (vadd diffuseBRDF specularBRDF) (calculatePointLight light position))
         (fmax (dot normal w_i) (lit 0 1)).

(** The product [(diffuseBRDF + specularBRDF) * calculatePointLight(light,
    position)] that [calculateBRDF] multiplies by [max(dot(normal, w_i), 0.0)]. *)
Definition brdfTimesIrradiance (light : PointLight) (position normal w_o : vec3)
    (roughness metallic : float) (albedo : vec3) : vec3 :=
  let w_i := normalize (vsub (pos light) position) in
  let F0 := mix (splat (lit 4 2)) albedo metallic in
  let kS := calculateFresnelSchlick w_i w_o F0 in
  let specularBRDF :=
    vmul kS (calculateSpecularBRDF albedo normal w_o w_i roughness metallic F0) in
  let diffuseBRDF :=
    vscale (vmul (vsub (splat (lit 10 1)) kS) (calculateDiffuseBRDF albedo))
           (lit 10 1 -@ metallic) in
  vmul (vadd diffuseBRDF specularBRDF) (calculatePointLight light position).

End Pow.

(** A channel that is a zero wherever it is defined; a channel that is
    defined and a zero. *)
Definition zeroOrUndefined (x : float) : Prop :=
  match x with
  | None => True
  | Some y => isZero y = true
  end.

Definition allZeroOrUndefined (v : vec3) : Prop :=
  zeroOrUndefined (vx v) /\ zeroOrUndefined (vy v) /\ zeroOrUndefined (vz v).

Definition definedZero (x : float) : Prop :=
  exists r, x = Some r /\ isZero r = true.

Definition allDefinedZero (v : vec3) : Prop :=
  definedZero (vx v) /\ definedZero (vy v) /\ definedZero (vz v).

End B32.

(** ** Proof steps that recur *)

(** A goal [x <> 0] from the positivity of [x]. *)
Ltac by_positivity := apply Rgt_not_eq, Rlt_gt.

(** Two triples of reals that differ in a component. *)
Ltac distinct_triples :=
  unfold rzero; let H := fresh "H" in intros H; injection H; intros; lra.

(** Equality of two triples of reals, component by component. *)
Ltac triple_eq := f_equal; [f_equal |].

Lemma triple_ext (x y z x' y' z' : R) :
  x = x' -> y = y' -> z = z' -> (x, y, z) = (x', y', z').
Proof. now intros -> -> ->. Qed.

(** ** Scalar operations on defined operands *)

Lemma fdiv_def (x y : R) : y <> 0 -> #x /@ #y = #(x / y).
Proof.
  intros Hy. unfold fdiv. destruct (Req_dec_T y 0); [contradiction | reflexivity].
Qed.

Lemma fdiv_zero (x : R) : #x /@ #0 = None.
Proof.
  unfold fdiv. destruct (Req_dec_T 0 0) as [_ | H]; [reflexivity | now elim H].
Qed.

Lemma fmax_def (x y : R) : fmax #x #y = #(Rmax x y).
Proof.
  unfold fmax, lift2, Rmax. f_equal.
  destruct (Rlt_dec x y), (Rle_dec x y); try reflexivity; lra.
Qed.

Lemma fsqrt_def (x : R) : 0 <= x -> fsqrt #x = #(sqrt x).
Proof.
  intros Hx. unfold fsqrt. destruct (Rlt_dec x 0); [lra | reflexivity].
Qed.

Lemma fpow_pos (x y : R) : 0 < x -> fpow #x #y = #(Rpower x y).
Proof.
  intros Hx. unfold fpow.
  destruct (Rlt_dec x 0); [lra |]. destruct (Req_dec_T x 0); [lra | reflexivity].
Qed.

Lemma fpow_zero (y : R) : 0 < y -> fpow #0 #y = #0.
Proof.
  intros Hy. unfold fpow.
  destruct (Rlt_dec 0 0); [lra |]. destruct (Req_dec_T 0 0) as [_ | H]; [| now elim H].
  destruct (Rlt_dec 0 y); [reflexivity | contradiction].
Qed.

(** [pow(x, 5.0)] is the fifth power on the non-negative reals. *)
Lemma fpow_5 (x : R) : 0 <= x -> fpow #x #5.0 = #(x ^ 5).
Proof.
  intros [Hx | <-].
  - rewrite fpow_pos by assumption. f_equal.
    replace 5.0 with (INR 5) by (simpl; lra). now apply Rpower_pow.
  - rewrite fpow_zero by lra. f_equal. ring.
Qed.

Lemma fle_true (x y : R) : x <= y -> fle #x #y = #1.
Proof.
  intros H. unfold fle, lift2. destruct (Rle_dec x y); [reflexivity | contradiction].
Qed.

Lemma fle_false (x y : R) : y < x -> fle #x #y = #0.
Proof.
  intros H. unfold fle, lift2. destruct (Rle_dec x y); [lra | reflexivity].
Qed.

(** ** Vector operations on defined operands *)

Lemma rdot_self_nonneg (a : R3) : 0 <= rdot a a.
Proof. destruct a as [[x y] z]. simpl. nra. Qed.

Lemma rdot_self_zero (a : R3) : rdot a a = 0 -> a = rzero.
Proof.
  destruct a as [[x y] z]. simpl. intros H. unfold rzero.
  assert (x = 0) by nra. assert (y = 0) by nra. assert (z = 0) by nra.
  now subst.
Qed.

Lemma rnorm_pos (a : R3) : a <> rzero -> 0 < rnorm a.
Proof.
  intros Ha. unfold rnorm. apply sqrt_lt_R0.
  destruct (rdot_self_nonneg a) as [H | H]; [assumption |].
  elim Ha. now apply rdot_self_zero.
Qed.

Lemma rnorm_sqr (a : R3) : rnorm a * rnorm a = rdot a a.
Proof. unfold rnorm. apply sqrt_sqrt, rdot_self_nonneg. Qed.

Lemma rsub_zero (a b : R3) : rsub a b = rzero -> a = b.
Proof.
  destruct a as [[x y] z], b as [[x' y'] z']. unfold rzero. simpl.
  intros H. injection H as H1 H2 H3. triple_eq; lra.
Qed.

Lemma runit_unit (a : R3) : a <> rzero -> rdot (runit a) (runit a) = 1.
Proof.
  intros Ha. pose proof (rnorm_pos a Ha) as Hn. pose proof (rnorm_sqr a) as Hs.
  destruct a as [[x y] z]. unfold runit. set (n := rnorm (x, y, z)) in *.
  simpl in *. field_simplify_eq; [lra | lra].
Qed.

(** Cauchy-Schwarz, from Lagrange's identity. *)
Lemma cauchy_schwarz (a b : R3) : rdot a b * rdot a b <= rdot a a * rdot b b.
Proof.
  destruct a as [[x y] z], b as [[x' y'] z']. simpl.
  assert (H : (x * x + y * y + z * z) * (x' * x' + y' * y' + z' * z')
              - (x * x' + y * y' + z * z') * (x * x' + y * y' + z * z')
              = (x * y' - y * x') * (x * y' - y * x')
                + (x * z' - z * x') * (x * z' - z * x')
                + (y * z' - z * y') * (y * z' - z * y')) by ring.
  pose proof (Rle_0_sqr (x * y' - y * x')) as H1.
  pose proof (Rle_0_sqr (x * z' - z * x')) as H2.
  pose proof (Rle_0_sqr (y * z' - z * y')) as H3.
  unfold Rsqr in H1, H2, H3. lra.
Qed.

Lemma rdot_unit_le_1 (a b : R3) : rdot a a = 1 -> rdot b b = 1 -> rdot a b <= 1.
Proof.
  intros Ha Hb. pose proof (cauchy_schwarz a b) as H. rewrite Ha, Hb in H. nra.
Qed.

Lemma dot_vec (a b : R3) : dot (vec a) (vec b) = #(rdot a b).
Proof. destruct a as [[x y] z], b as [[x' y'] z']. reflexivity. Qed.

Lemma vadd_vec (a b : R3) : vadd (vec a) (vec b) = vec (radd a b).
Proof. destruct a as [[x y] z], b as [[x' y'] z']. reflexivity. Qed.

Lemma vsub_vec (a b : R3) : vsub (vec a) (vec b) = vec (rsub a b).
Proof. destruct a as [[x y] z], b as [[x' y'] z']. reflexivity. Qed.

Lemma vscale_vec (a : R3) (s : R) : vscale (vec a) #s = vec (rscale a s).
Proof. destruct a as [[x y] z]. reflexivity. Qed.

Lemma length_vec (a : R3) : length (vec a) = #(rnorm a).
Proof.
  unfold length. rewrite dot_vec. apply fsqrt_def, rdot_self_nonneg.
Qed.

Lemma normalize_vec (a : R3) : a <> rzero -> normalize (vec a) = vec (runit a).
Proof.
  intros Ha. pose proof (rnorm_pos a Ha) as Hn.
  unfold normalize. rewrite length_vec.
  destruct a as [[x y] z]. unfold runit, vdivs, vdiv, vmap2, splat, vec, v3.
  cbn [vx vy vz]. now rewrite !fdiv_def by lra.
Qed.

(** The normalisation of the zero vector divides by zero. *)
Lemma normalize_zero : normalize (vec rzero) = mkvec3 None None None.
Proof.
  unfold normalize. rewrite length_vec.
  assert (H : rnorm rzero = 0).
  { unfold rnorm, rzero. simpl. replace (0 * 0 + 0 * 0 + 0 * 0) with 0 by ring.
    apply sqrt_0. }
  rewrite H. unfold vdivs, vdiv, vmap2, splat, vec, rzero, v3. cbn [vx vy vz].
  now rewrite fdiv_zero.
Qed.

(** ** binary32: zeros and undefined results *)

(** The literals of the shader are the binary32 numbers nearest to their
    decimal values. *)
Lemma b32_literals_nearest :
  forallb (fun '(m, k) => B32.nearestTo (B32.decimal m k) m k)
    [(0, 1); (10, 1); (40, 1); (50, 1); (80, 1); (314159, 5); (4, 2); (1, 5)]%Z
  = true.
Proof. vm_compute. reflexivity. Qed.






(** A product with a zero is a zero, or undefined (infinity times zero). *)
Lemma b32_fmul_zero (a : B32.float) (z : spec_float) :
  B32.isZero z = true -> B32.zeroOrUndefined (B32.fmul a (Some z)).
Proof.
  destruct z as [s | | |]; try discriminate. intros _.
  destruct a as [[sx | sx | | sx mx ex] |]; cbn; auto.
Qed.

Lemma b32_fmul_zero_finite (x z : spec_float) :
  B32.isFinite x = true -> B32.isZero z = true ->
  exists r, B32.fmul (Some x) (Some z) = Some r /\ B32.isZero r = true.
Proof.
  destruct z as [s | | |]; try discriminate.
  destruct x as [sx | | | sx mx ex]; try discriminate; intros _ _;
    eexists; split; reflexivity.
Qed.

(** The clamp [max(d, 0.0)] of a number [d <= 0] is a zero. *)
Lemma b32_fmax_nonpositive (d : spec_float) :
  SFleb d B32.zero = true ->
  exists r, B32.fmax (Some d) (B32.lit 0 1) = Some r /\ B32.isZero r = true.
Proof.
  destruct d as [s | [|] | | [|] m e]; try discriminate; intros _;
    eexists; split; reflexivity.
Qed.

Lemma b32_vscale_zero (v : B32.vec3) (z : spec_float) :
  B32.isZero z = true -> B32.allZeroOrUndefined (B32.vscale v (Some z)).
Proof.
  intros Hz. destruct v as [x y w]. unfold B32.allZeroOrUndefined, B32.vscale, B32.vmul,
    B32.vmap2, B32.splat. cbn [B32.vx B32.vy B32.vz].
  repeat split; now apply b32_fmul_zero.
Qed.

Lemma b32_vscale_zero_finite (x y z r : spec_float) :
  B32.isFinite x = true -> B32.isFinite y = true -> B32.isFinite z = true ->
  B32.isZero r = true ->
  B32.allDefinedZero (B32.vscale (B32.v3 x y z) (Some r)).
Proof.
  intros Hx Hy Hz Hr. unfold B32.allDefinedZero, B32.definedZero, B32.vscale, B32.vmul,
    B32.vmap2, B32.splat, B32.v3. cbn [B32.vx B32.vy B32.vz].
  repeat split; now apply b32_fmul_zero_finite.
Qed.

Lemma b32_vadd_vscale_undefined (F0 X : B32.vec3) :
  B32.vadd F0 (B32.vscale X None) = B32.undefined.
Proof.
  destruct F0 as [[a |] [b |] [c |]], X as [[x |] [y |] [z |]]; reflexivity.
Qed.

(** ** Tone mapping *)

Lemma reinhard_bounds (c : R) : 0 <= c -> 0 <= Spec.reinhard c < 1.
Proof.
  intros Hc. unfold Spec.reinhard. split.
  - apply Rmult_le_pos; [assumption |].
    apply Rlt_le, Rinv_0_lt_compat. lra.
  - apply Rmult_lt_reg_r with (c + 1); [lra |].
    unfold Rdiv. rewrite Rmult_assoc, Rinv_l by lra. lra.
Qed.

Lemma reinhard_mono (a b : R) : 0 <= a -> a <= b -> Spec.reinhard a <= Spec.reinhard b.
Proof.
  intros Ha Hab. unfold Spec.reinhard.
  replace (a / (a + 1)) with (1 - / (a + 1)) by (field; lra).
  replace (b / (b + 1)) with (1 - / (b + 1)) by (field; lra).
  assert (/ (b + 1) <= / (a + 1)) by (apply Rinv_le_contravar; lra). lra.
Qed.

Lemma tonemap_vec (c : R3) :
  channels (fun x => x + 1 <> 0) c -> tonemap (vec c) = vec (Spec.rmap Spec.reinhard c).
Proof.
  destruct c as [[x y] z]. intros (Hx & Hy & Hz).
  unfold tonemap, vdiv, vadd, vmap2, splat, vec, v3, Spec.rmap, Spec.reinhard.
  cbn [vx vy vz fadd lift2].
  replace 1.0 with 1 by lra. now rewrite !fdiv_def by assumption.
Qed.

(** ** Point light falloff *)

Lemma pointLightDenom_vec (lcolor : vec3) (li : float) (lpos p : R3) :
  pointLightDenom (mkPointLight (vec lpos) lcolor li) (vec p)
  = #(4 * Spec.pi * rnorm (rsub lpos p) * rnorm (rsub lpos p)).
Proof.
  unfold pointLightDenom. cbn [pos]. rewrite vsub_vec, length_vec.
  cbn [fmul lift2]. do 2 f_equal. unfold Spec.pi. lra.
Qed.

Lemma calculatePointLight_vec (lcolor : R3) (li : R) (lpos p : R3) :
  lpos <> p ->
  calculatePointLight (mkPointLight (vec lpos) (vec lcolor) #li) (vec p)
  = vec (Spec.irradianceAt lcolor li lpos p).
Proof.
  intros Hne. unfold calculatePointLight. rewrite pointLightDenom_vec.
  cbn [color intensity].
  assert (Hd : 0 < rnorm (rsub lpos p)).
  { apply rnorm_pos. intros H. apply Hne. now apply rsub_zero. }
  rewrite fdiv_def.
  - now rewrite vscale_vec.
  - unfold Spec.pi. nra.
Qed.


(** C7, counterexample.  In binary32 the tone mapper reaches 1.0: at
    2^24 the sum [c + 1.0] rounds to [c] and the quotient is exactly 1.0,
    outside [0, 1); and it decreases between the adjacent floats
    0x3f8023c9 (1.0010921) and 0x3f8023ca, from 0x3f0011e3 (0.50027293)
    to 0x3f0011e2 (0.50027287). *)
Lemma tonemap_binary32_reaches_one :
  B32.tonemap (B32.splat (Some (B32.pow2 24))) = B32.splat (B32.lit 10 1) /\
  SFltb (B32.ofBits 0x3f8023c9) (B32.ofBits 0x3f8023ca) = true /\
  B32.tonemap (B32.splat (Some (B32.ofBits 0x3f8023c9)))
  = B32.splat (Some (B32.ofBits 0x3f0011e3)) /\
  B32.tonemap (B32.splat (Some (B32.ofBits 0x3f8023ca)))
  = B32.splat (Some (B32.ofBits 0x3f0011e2)) /\
  SFltb (B32.ofBits 0x3f0011e2) (B32.ofBits 0x3f0011e3) = true.
Proof. repeat split; vm_compute; reflexivity. Qed.

(** C7, amended.  The tone mapper evaluates [c / (c + 1.0)] in every
    channel.  Over exact reals this is the Reinhard operator: on
    non-negative input it is defined, lies in [0, 1) and is
    non-decreasing.  In binary32 it agrees on small inputs ((0, 1, 3)
    gives (0, 0.5, 0.75)), but its output is exactly 1.0 at 2^24 and at
    2^25, where [c + 1.0] rounds to [c], and it decreases between the
    adjacent floats 0x3f8023c9 and 0x3f8023ca. *)
Theorem tonemap_reinhard_bounded_monotone :
  (forall c c' : R3,
      channels (Rle 0) c -> channels2 Rle c c' ->
      tonemap (vec c) = vec (Spec.rmap Spec.reinhard c) /\
      tonemap (vec c') = vec (Spec.rmap Spec.reinhard c') /\
      channels (fun y => 0 <= y < 1) (Spec.rmap Spec.reinhard c) /\
      channels2 Rle (Spec.rmap Spec.reinhard c) (Spec.rmap Spec.reinhard c')) /\
  (B32.tonemap (B32.ivec 0 1 3)
   = B32.v3 B32.zero (B32.decimal 5 1) (B32.decimal 75 2)) /\
  (B32.tonemap (B32.splat (Some (B32.pow2 24))) = B32.splat (B32.lit 10 1) /\
   B32.tonemap (B32.splat (Some (B32.pow2 25))) = B32.splat (B32.lit 10 1)) /\
  (let a := B32.ofBits 0x3f8023c9 in
   let a' := B32.ofBits 0x3f8023ca in
   let t := B32.ofBits 0x3f0011e3 in
   let t' := B32.ofBits 0x3f0011e2 in
   SFltb a a' = true /\
   B32.tonemap (B32.splat (Some a)) = B32.splat (Some t) /\
   B32.tonemap (B32.splat (Some a')) = B32.splat (Some t') /\
   SFltb t' t = true).
Proof.
  split; [| split; [| split]].
  - intros [[x y] z] [[x' y'] z'] (Hx & Hy & Hz) (Hx' & Hy' & Hz').
    split; [| split; [| split]].
    + apply tonemap_vec. simpl. repeat split; lra.
    + apply tonemap_vec. simpl. repeat split; lra.
    + simpl. repeat split; now apply reinhard_bounds.
    + simpl. repeat split; now apply reinhard_mono.
  - vm_compute. reflexivity.
  - split; vm_compute; reflexivity.
  - cbv zeta. repeat split; vm_compute; reflexivity.
Qed.

Lemma tonemap_reinhard_witness :
  tonemap (vec (0, 1, 3)) = vec (Spec.rmap Spec.reinhard (0, 1, 3)) /\
  channels2 Rle (Spec.rmap Spec.reinhard (0, 1, 3)) (Spec.rmap Spec.reinhard (0, 2, 3)).
Proof.
  assert (H0 : channels (Rle 0) (0, 1, 3)) by (simpl; lra).
  assert (H1 : channels2 Rle (0, 1, 3) (0, 2, 3)) by (simpl; lra).
  destruct (proj1 tonemap_reinhard_bounded_monotone (0, 1, 3) (0, 2, 3) H0 H1)
    as (Ha & _ & _ & Hm).
  exact (conj Ha Hm).
Defined.


Lemma rnorm_axis (z : R) : 0 <= z -> rnorm (0, 0, z) = z.
Proof.
  intros Hz. unfold rnorm. simpl.
  replace (0 * 0 + 0 * 0 + z * z) with (z * z) by ring. now apply sqrt_square.
Qed.





(** ** Cook-Torrance terms *)

Lemma vmul_vec (a b : R3) : vmul (vec a) (vec b) = vec (rmul a b).
Proof. destruct a as [[x y] z], b as [[x' y'] z']. reflexivity. Qed.

Lemma splat_vec (s : R) : splat #s = vec (s, s, s).
Proof. reflexivity. Qed.

Lemma rdot_comm (a b : R3) : rdot a b = rdot b a.
Proof. destruct a as [[x y] z], b as [[x' y'] z']. simpl. ring. Qed.

Lemma ggxDenom_vec (n h : R3) (rough : R) :
  ggxDenom (vec n) (vec h) #rough = #(Spec.Dden n h rough).
Proof.
  unfold ggxDenom. rewrite dot_vec, fmax_def. cbn [fmul fadd fsub lift2].
  f_equal. unfold Spec.Dden, Spec.pi. replace 0.0 with 0 by lra. lra.
Qed.

Lemma calculateDistributionGGX_vec (n h : R3) (rough : R) :
  Spec.Dden n h rough <> 0 ->
  calculateDistributionGGX (vec n) (vec h) #rough = #(Spec.D n h rough).
Proof.
  intros Hd. unfold calculateDistributionGGX. rewrite ggxDenom_vec.
  cbn [fmul lift2]. now rewrite fdiv_def.
Qed.

(** The clamped cosine of two unit vectors lies in [0, 1]. *)
Lemma clamped_cos_bounds (a b : R3) :
  rdot a a = 1 -> rdot b b = 1 -> 0 <= Rmax (rdot a b) 0 <= 1.
Proof.
  intros Ha Hb. pose proof (rdot_unit_le_1 a b Ha Hb). split.
  - apply Rmax_r.
  - apply Rmax_lub; lra.
Qed.

Lemma Dden_pos (n h : R3) (rough : R) :
  rdot n n = 1 -> rdot h h = 1 -> 0 < rough -> 0 < Spec.Dden n h rough.
Proof.
  intros Hn Hh Hr. unfold Spec.Dden.
  destruct (clamped_cos_bounds n h Hn Hh) as [H0 H1].
  set (c := Rmax (rdot n h) 0) in *.
  assert (Hq : 0 < c * c * (rough * rough - 1) + 1).
  { assert (Ha : 0 < rough * rough) by nra.
    assert (Hc : 0 <= c * c <= 1) by nra.
    destruct (Rle_lt_dec 1 (rough * rough)); nra. }
  unfold Spec.pi. nra.
Qed.

Lemma G1den_pos (n v : R3) (rough : R) :
  0 < rough -> rdot n n = 1 -> rdot v v = 1 -> 0 < Spec.G1den n v (Spec.k rough).
Proof.
  intros Hr Hn Hv. unfold Spec.G1den, Spec.k.
  destruct (clamped_cos_bounds n v Hn Hv) as [H0 H1].
  set (c := Rmax (rdot n v) 0) in *.
  assert (Hk : 0 < (rough + 1) * (rough + 1) / 8) by nra.
  set (k := (rough + 1) * (rough + 1) / 8) in *.
  replace (c * (1 - k) + k) with (c + k * (1 - c)) by ring. nra.
Qed.

Lemma calculateGeometrySchlick_vec (n v : R3) (k : R) :
  Spec.G1den n v k <> 0 ->
  calculateGeometrySchlick (vec n) (vec v) #k = #(Spec.G1 n v k).
Proof.
  intros Hd. unfold calculateGeometrySchlick. rewrite dot_vec, fmax_def.
  cbn [fmul fadd fsub lift2]. replace 0.0 with 0 by lra. replace 1.0 with 1 by lra.
  now rewrite fdiv_def.
Qed.

Lemma calculateGeometrySmith_vec (n wi wo : R3) (k : R) :
  Spec.G1den n wi k <> 0 -> Spec.G1den n wo k <> 0 ->
  calculateGeometrySmith (vec n) (vec wi) (vec wo) #k = #(Spec.G n wi wo k).
Proof.
  intros Hi Ho. unfold calculateGeometrySmith.
  now rewrite !calculateGeometrySchlick_vec.
Qed.

Lemma calculateFresnelSchlick_vec (wi wo f0 : R3) :
  radd wi wo <> rzero -> rdot wo wo = 1 ->
  calculateFresnelSchlick (vec wi) (vec wo) (vec f0) = vec (Spec.F wi wo f0).
Proof.
  intros Hh Hwo. unfold calculateFresnelSchlick.
  rewrite vadd_vec, normalize_vec, dot_vec, fmax_def by assumption.
  pose proof (runit_unit _ Hh) as Hu.
  destruct (clamped_cos_bounds wo (runit (radd wi wo)) Hwo Hu) as [H0 H1].
  cbn [fsub lift2]. replace 0.0 with 0 by lra. replace 1.0 with 1 by lra.
  rewrite fpow_5 by lra.
  destruct f0 as [[x y] z]. reflexivity.
Qed.

Lemma specular_denominator_pos (a b : R) : 0 < 4 * Rmax a Spec.eps * Rmax b Spec.eps.
Proof.
  pose proof (Rmax_r a Spec.eps). pose proof (Rmax_r b Spec.eps).
  unfold Spec.eps in *. nra.
Qed.

Lemma calculateSpecularBRDF_vec (albedo : vec3) (n wo wi : R3) (rough : R)
    (metallic : float) (f0 : vec3) :
  radd wi wo <> rzero ->
  Spec.Dden n (runit (radd wi wo)) rough <> 0 ->
  Spec.G1den n wi (Spec.k rough) <> 0 -> Spec.G1den n wo (Spec.k rough) <> 0 ->
  calculateSpecularBRDF albedo (vec n) (vec wo) (vec wi) #rough metallic f0
  = splat #(Spec.specular n wi wo rough).
Proof.
  intros Hh Hd Hi Ho. unfold calculateSpecularBRDF.
  rewrite vadd_vec, normalize_vec, calculateDistributionGGX_vec by assumption.
  cbn [fadd fmul lift2]. replace 1.0 with 1 by lra. replace 8.0 with 8 by lra.
  rewrite fdiv_def by lra. fold (Spec.k rough).
  rewrite calculateGeometrySmith_vec by assumption.
  rewrite !dot_vec, !fmax_def. cbn [fmul lift2].
  rewrite (rdot_comm wo n), (rdot_comm wi n). replace 4.0 with 4 by lra.
  fold Spec.eps.
  pose proof (specular_denominator_pos (rdot n wo) (rdot n wi)).
  rewrite fdiv_def by lra. reflexivity.
Qed.

Lemma calculateDiffuseBRDF_vec (albedo : R3) :
  calculateDiffuseBRDF (vec albedo) = vec (Spec.rmap (fun a => a / Spec.pi) albedo).
Proof.
  destruct albedo as [[x y] z].
  unfold calculateDiffuseBRDF, vdivs, vdiv, vmap2, splat, vec, v3. cbn [vx vy vz].
  rewrite !fdiv_def by lra. reflexivity.
Qed.

Lemma mix_F0 (albedo : R3) (metallic : R) :
  mix (splat #0.04) (vec albedo) #metallic = vec (Spec.F0 albedo metallic).
Proof. destruct albedo as [[x y] z]. reflexivity. Qed.

Lemma rscale_splat (a : R3) (s : R) : rmul a (s, s, s) = rscale a s.
Proof. destruct a as [[x y] z]. reflexivity. Qed.

Lemma rscale_zero (a : R3) : rscale a 0 = rzero.
Proof. destruct a as [[x y] z]. unfold rzero. simpl. triple_eq; ring. Qed.

(** The value of [calculateBRDF] wherever every division in it is defined. *)
Lemma calculateBRDF_vec (lcolor : R3) (li : R) (lpos p n wo : R3)
    (rough metallic : R) (albedo : R3) :
  let wi := runit (rsub lpos p) in
  lpos <> p -> rdot wo wo = 1 -> radd wi wo <> rzero ->
  Spec.Dden n (runit (radd wi wo)) rough <> 0 ->
  Spec.G1den n wi (Spec.k rough) <> 0 -> Spec.G1den n wo (Spec.k rough) <> 0 ->
  calculateBRDF (mkPointLight (vec lpos) (vec lcolor) #li) (vec p) (vec n) (vec wo)
    #rough #metallic (vec albedo)
  = vec (Spec.evaluate lcolor li lpos p n wo rough metallic albedo).
Proof.
  intros wi Hp Hwo Hh Hd Hi Ho. unfold calculateBRDF. cbn [pos].
  assert (Hne : rsub lpos p <> rzero).
  { intros H. apply Hp. now apply rsub_zero. }
  rewrite vsub_vec, normalize_vec by assumption. fold wi.
  rewrite mix_F0, calculateFresnelSchlick_vec by assumption.
  rewrite calculateSpecularBRDF_vec by assumption.
  rewrite calculateDiffuseBRDF_vec, calculatePointLight_vec by assumption.
  rewrite dot_vec, fmax_def. cbn [fsub lift2].
  rewrite !splat_vec, !vsub_vec, !vmul_vec, !vscale_vec, vadd_vec, !vmul_vec,
    !vscale_vec.
  replace 0.0 with 0 by lra. replace 1.0 with 1 by lra.
  unfold Spec.evaluate. fold wi. rewrite rscale_splat.
  set (f := Spec.F wi wo (Spec.F0 albedo metallic)).
  replace (rsub (1, 1, 1) f) with (Spec.rmap (fun x => 1 - x) f)
    by (destruct f as [[x y] z]; reflexivity).
  reflexivity.
Qed.





Lemma up_unit : rdot up up = 1.
Proof. unfold up. simpl. ring. Qed.

Lemma up_plus_up : radd up up <> rzero.
Proof. unfold up, rzero. simpl. intros H. injection H as H. lra. Qed.

Lemma runit_up_plus_up : runit (radd up up) = up.
Proof.
  unfold up. simpl radd. replace (1 + 1) with 2 by ring.
  unfold runit. replace (0 + 0) with 0 by ring. rewrite rnorm_axis by lra.
  triple_eq; lra.
Qed.

(** C6.  Wherever the specification's formulas are defined (the
    half-vector exists and no denominator is zero) the code computes
    them: [D] with [a2 = roughness^2] and the clamped [n.h], [k =
    (roughness + 1)^2 / 8], [G1] with the clamped [n.v], [G = G1(w_i) *
    G1(w_o)], and the specular quotient over [4 * max(n.w_o, eps) *
    max(n.w_i, eps)] with [eps = 1e-5]; pi is the shader's 3.14159. *)
Theorem cook_torrance_terms (n wi wo : R3) (rough : R) (albedo f0 : vec3)
    (metallic : float) :
  radd wi wo <> rzero ->
  Spec.Dden n (runit (radd wi wo)) rough <> 0 ->
  Spec.G1den n wi (Spec.k rough) <> 0 -> Spec.G1den n wo (Spec.k rough) <> 0 ->
  normalize (vadd (vec wi) (vec wo)) = vec (runit (radd wi wo)) /\
  calculateDistributionGGX (vec n) (vec (runit (radd wi wo))) #rough
  = #(rough * rough
      / (Spec.pi * ((Rmax (rdot n (runit (radd wi wo))) 0
                     * Rmax (rdot n (runit (radd wi wo))) 0
                     * (rough * rough - 1) + 1)
                    * (Rmax (rdot n (runit (radd wi wo))) 0
                       * Rmax (rdot n (runit (radd wi wo))) 0
                       * (rough * rough - 1) + 1)))) /\
  ((#rough +@ #1.0) *@ (#rough +@ #1.0)) /@ #8.0 = #(Spec.k rough) /\
  calculateGeometrySchlick (vec n) (vec wi) #(Spec.k rough)
  = #(Rmax (rdot n wi) 0 / (Rmax (rdot n wi) 0 * (1 - Spec.k rough) + Spec.k rough)) /\
  calculateGeometrySchlick (vec n) (vec wo) #(Spec.k rough)
  = #(Rmax (rdot n wo) 0 / (Rmax (rdot n wo) 0 * (1 - Spec.k rough) + Spec.k rough)) /\
  calculateGeometrySmith (vec n) (vec wi) (vec wo) #(Spec.k rough)
  = #(Spec.G1 n wi (Spec.k rough) * Spec.G1 n wo (Spec.k rough)) /\
  calculateSpecularBRDF albedo (vec n) (vec wo) (vec wi) #rough metallic f0
  = splat #(Spec.D n (runit (radd wi wo)) rough * Spec.G n wi wo (Spec.k rough)
            / (4 * Rmax (rdot n wo) 0.00001 * Rmax (rdot n wi) 0.00001)).
Proof.
  intros Hh Hd Hi Ho. repeat split.
  - rewrite vadd_vec. now apply normalize_vec.
  - now rewrite calculateDistributionGGX_vec.
  - cbn [fadd fmul lift2]. rewrite fdiv_def by lra. f_equal. unfold Spec.k. lra.
  - now rewrite calculateGeometrySchlick_vec.
  - now rewrite calculateGeometrySchlick_vec.
  - now rewrite calculateGeometrySmith_vec.
  - now rewrite calculateSpecularBRDF_vec.
Qed.

Lemma head_on_defined (rough : R) :
  0 < rough ->
  Spec.Dden up (runit (radd up up)) rough <> 0 /\
  Spec.G1den up up (Spec.k rough) <> 0.
Proof.
  intros Hr. split.
  - by_positivity; apply Dden_pos; try assumption; [apply up_unit |].
    apply runit_unit, up_plus_up.
  - by_positivity; apply G1den_pos; try assumption; apply up_unit.
Qed.

Lemma cook_torrance_terms_witness :
  calculateSpecularBRDF (vec (1, 1, 1)) (vec up) (vec up) (vec up) #0.5 #0
    (splat #0.04)
  = splat #(Spec.D up (runit (radd up up)) 0.5 * Spec.G up up up (Spec.k 0.5)
            / (4 * Rmax (rdot up up) 0.00001 * Rmax (rdot up up) 0.00001)).
Proof.
  assert (Hr : 0 < 0.5) by lra.
  destruct (head_on_defined 0.5 Hr) as [Hd Hg].
  exact (proj2 (proj2 (proj2 (proj2 (proj2 (proj2
    (cook_torrance_terms up up up 0.5 (vec (1, 1, 1)) (splat #0.04) #0
       up_plus_up Hd Hg Hg))))))).
Defined.

(** ** Fresnel weighting *)

Lemma fresnel_head_on (f0 : R3) : Spec.F up up f0 = f0.
Proof.
  unfold Spec.F. rewrite runit_up_plus_up, up_unit. rewrite Rmax_left by lra.
  destruct f0 as [[x y] z]. simpl. triple_eq; ring.
Qed.

Lemma specular_head_on : Spec.specular up up up 1 = / (4 * Spec.pi).
Proof.
  unfold Spec.specular, Spec.D, Spec.Dden, Spec.G, Spec.G1, Spec.G1den, Spec.k.
  rewrite runit_up_plus_up, up_unit.
  rewrite (Rmax_left 1 0) by lra. rewrite Rmax_left by (unfold Spec.eps; lra).
  unfold Spec.pi. field. lra.
Qed.

(** C2, counterexample.  Head-on on a dielectric ([F0 = 0.04], roughness
    1) the Fresnel factor is 0.04 in every channel, and
    [calculateSpecularBRDF] returns [1 / (4 * 3.14159)], with no Fresnel
    factor in it: the value is not 0.04 times that one. *)
Lemma specular_brdf_has_no_fresnel_factor :
  calculateFresnelSchlick (vec up) (vec up) (vec (0.04, 0.04, 0.04))
  = vec (0.04, 0.04, 0.04) /\
  calculateSpecularBRDF (vec (1, 1, 1)) (vec up) (vec up) (vec up) #1 #0
    (vec (0.04, 0.04, 0.04))
  = splat #(/ (4 * Spec.pi)) /\
  calculateSpecularBRDF (vec (1, 1, 1)) (vec up) (vec up) (vec up) #1 #0
    (vec (0.04, 0.04, 0.04))
  <> vmul (vec (0.04, 0.04, 0.04)) (splat #(/ (4 * Spec.pi))).
Proof.
  assert (Hr : 0 < 1) by lra. destruct (head_on_defined 1 Hr) as [Hd Hg].
  assert (Hs : calculateSpecularBRDF (vec (1, 1, 1)) (vec up) (vec up) (vec up) #1 #0
                 (vec (0.04, 0.04, 0.04)) = splat #(/ (4 * Spec.pi))).
  { rewrite calculateSpecularBRDF_vec by (assumption || apply up_plus_up).
    now rewrite specular_head_on. }
  split; [| split; [exact Hs |]].
  - rewrite calculateFresnelSchlick_vec by (apply up_plus_up || apply up_unit).
    now rewrite fresnel_head_on.
  - rewrite Hs. unfold splat, vec, v3, vmul, vmap2. cbn [vx vy vz fmul lift2].
    intros H. injection H as H _ _.
    assert (0 < / (4 * Spec.pi)) by (apply Rinv_0_lt_compat; unfold Spec.pi; lra).
    lra.
Qed.

(** C2, amended.  The Fresnel weighting is applied once in the specular
    path.  [calculateSpecularBRDF] computes [F] and does not use it: its
    result does not depend on [albedo], [metallic] or [F0] for any
    arguments, and wherever it is defined it is [(D * G) / (4 *
    max(n.w_o, eps) * max(n.w_i, eps))] in every channel.
    [calculateBRDF] multiplies that value by [kS = F] once, as in
    [(diffuse + F * specular) * irradiance * max(n.w_i, 0)]. *)
Theorem fresnel_applied_once (lcolor : R3) (li : R) (lpos p n wo : R3)
    (rough metallic : R) (albedo : R3) :
  let wi := runit (rsub lpos p) in
  (forall (alb alb' normal w_o w_i f0 f0' : vec3) (r m m' : float),
      calculateSpecularBRDF alb normal w_o w_i r m f0
      = calculateSpecularBRDF alb' normal w_o w_i r m' f0') /\
  (lpos <> p -> rdot wo wo = 1 -> radd wi wo <> rzero ->
   Spec.Dden n (runit (radd wi wo)) rough <> 0 ->
   Spec.G1den n wi (Spec.k rough) <> 0 -> Spec.G1den n wo (Spec.k rough) <> 0 ->
   (forall f0 : vec3,
       calculateSpecularBRDF (vec albedo) (vec n) (vec wo) (vec wi) #rough #metallic f0
       = splat #(Spec.D n (runit (radd wi wo)) rough * Spec.G n wi wo (Spec.k rough)
                 / (4 * Rmax (rdot n wo) Spec.eps * Rmax (rdot n wi) Spec.eps))) /\
   calculateBRDF (mkPointLight (vec lpos) (vec lcolor) #li) (vec p) (vec n) (vec wo)
     #rough #metallic (vec albedo)
   = vec (rscale
            (rmul (radd (rscale (rmul (Spec.rmap (fun x => 1 - x)
                                         (Spec.F wi wo (Spec.F0 albedo metallic)))
                                      (Spec.rmap (fun a => a / Spec.pi) albedo))
                                (1 - metallic))
                        (rscale (Spec.F wi wo (Spec.F0 albedo metallic))
                                (Spec.specular n wi wo rough)))
                  (Spec.irradianceAt lcolor li lpos p))
            (Rmax (rdot n wi) 0))).
Proof.
  intros wi. split.
  - reflexivity.
  - intros Hp Hwo Hh Hd Hi Ho. split.
    + intros f0. now rewrite calculateSpecularBRDF_vec.
    + subst wi. now rewrite calculateBRDF_vec.
Qed.

Lemma lightAbove_direction : runit (rsub lightAbove rzero) = up.
Proof.
  unfold lightAbove, rzero, up. simpl rsub.
  replace (0 - 0) with 0 by ring. replace (5 - 0) with 5 by ring.
  unfold runit. rewrite rnorm_axis by lra. triple_eq; lra.
Qed.

Lemma lightAbove_apart : lightAbove <> rzero.
Proof. unfold lightAbove, rzero. intros H. injection H as H. lra. Qed.

Lemma fresnel_applied_once_witness :
  calculateBRDF (mkPointLight (vec lightAbove) (vec (1, 1, 1)) #2000) (vec rzero)
    (vec up) (vec up) #0.5 #0 (vec (1, 1, 1))
  = vec (rscale
           (rmul (radd (rscale (rmul (Spec.rmap (fun x => 1 - x)
                                        (Spec.F (runit (rsub lightAbove rzero)) up
                                           (Spec.F0 (1, 1, 1) 0)))
                                     (Spec.rmap (fun a => a / Spec.pi) (1, 1, 1)))
                               (1 - 0))
                       (rscale (Spec.F (runit (rsub lightAbove rzero)) up
                                  (Spec.F0 (1, 1, 1) 0))
                               (Spec.specular up (runit (rsub lightAbove rzero)) up
                                  0.5)))
                 (Spec.irradianceAt (1, 1, 1) 2000 lightAbove rzero))
           (Rmax (rdot up (runit (rsub lightAbove rzero))) 0)).
Proof.
  assert (Hr : 0 < 0.5) by lra. destruct (head_on_defined 0.5 Hr) as [Hd Hg].
  assert (Hh : radd (runit (rsub lightAbove rzero)) up <> rzero)
    by (rewrite lightAbove_direction; apply up_plus_up).
  assert (Hd' : Spec.Dden up (runit (radd (runit (rsub lightAbove rzero)) up)) 0.5 <> 0)
    by (rewrite lightAbove_direction; exact Hd).
  assert (Hi : Spec.G1den up (runit (rsub lightAbove rzero)) (Spec.k 0.5) <> 0)
    by (rewrite lightAbove_direction; exact Hg).
  exact (proj2 (proj2 (fresnel_applied_once (1, 1, 1) 2000 lightAbove rzero up up
                         0.5 0 (1, 1, 1))
                  lightAbove_apart up_unit Hh Hd' Hi Hg)).
Defined.

Lemma F0_bounds (a m : R) :
  0 <= a <= 1 -> 0 <= m <= 1 -> 0 <= 0.04 * (1 - m) + a * m <= 1.
Proof. intros Ha Hm. nra. Qed.

Lemma schlick_bounds (f t : R) :
  0 <= f <= 1 -> 0 <= t <= 1 -> 0 <= f + (1 - f) * t ^ 5 <= 1.
Proof.
  intros Hf Ht.
  assert (H5 : 0 <= t ^ 5 <= 1).
  { split; [apply pow_le; lra |].
    replace 1 with (1 ^ 5) by ring. apply pow_incr. lra. }
  nra.
Qed.

Lemma energy_split (f m : R) :
  0 <= f <= 1 -> 0 <= m <= 1 -> (1 - f) * (1 - m) + f <= 1.
Proof. intros Hf Hm. nra. Qed.

Lemma fresnel_weights_bounded (wi wo albedo : R3) (metallic : R) :
  rdot wo wo = 1 -> radd wi wo <> rzero ->
  channels (fun a => 0 <= a <= 1) albedo -> 0 <= metallic <= 1 ->
  channels (fun f => 0 <= f <= 1 /\ (1 - f) * (1 - metallic) + f <= 1)
           (Spec.F wi wo (Spec.F0 albedo metallic)).
Proof.
  intros Hwo Hh Ha Hm.
  pose proof (runit_unit _ Hh) as Hu.
  destruct (clamped_cos_bounds wo (runit (radd wi wo)) Hwo Hu) as [H0 H1].
  unfold Spec.F. set (c := Rmax (rdot wo (runit (radd wi wo))) 0) in *.
  assert (Ht : 0 <= 1 - c <= 1) by lra.
  destruct albedo as [[x y] z]. destruct Ha as (Hx & Hy & Hz). simpl.
  assert (Hch : forall a, 0 <= a <= 1 ->
            0 <= (0.04 * (1 - metallic) + a * metallic)
                 + (1 - (0.04 * (1 - metallic) + a * metallic)) * (1 - c) ^ 5 <= 1 /\
            (1 - ((0.04 * (1 - metallic) + a * metallic)
                  + (1 - (0.04 * (1 - metallic) + a * metallic)) * (1 - c) ^ 5))
            * (1 - metallic)
            + ((0.04 * (1 - metallic) + a * metallic)
               + (1 - (0.04 * (1 - metallic) + a * metallic)) * (1 - c) ^ 5) <= 1).
  { intros a Hab.
    pose proof (schlick_bounds _ _ (F0_bounds a metallic Hab Hm) Ht) as Hf.
    split; [exact Hf | now apply energy_split]. }
  split; [| split]; now apply Hch.
Qed.

Lemma rzero_dec (a : R3) : a = rzero \/ a <> rzero.
Proof.
  destruct a as [[x y] z]. unfold rzero.
  destruct (Req_dec x 0) as [-> | Hx];
    [destruct (Req_dec y 0) as [-> | Hy];
     [destruct (Req_dec z 0) as [-> | Hz]; [now left |] |] |];
    right; intros H; injection H; intros; contradiction.
Qed.

(** Without a half-vector ([w_i + w_o = 0]) the Fresnel term is undefined. *)
Lemma calculateFresnelSchlick_without_half_vector (wi wo : R3) (F0 : vec3) :
  radd wi wo = rzero ->
  calculateFresnelSchlick (vec wi) (vec wo) F0 = mkvec3 None None None.
Proof.
  intros H. unfold calculateFresnelSchlick.
  rewrite vadd_vec, H, normalize_zero.
  destruct wo as [[x y] z], F0 as [[a |] [b |] [c |]]; reflexivity.
Qed.

(** When the base [1.0 - VoH] of the [pow] in [calculateFresnelSchlick]
    computes to a negative number, the Fresnel term is undefined. *)
Lemma b32_fresnel_negative_base (pow_impl : spec_float -> spec_float -> spec_float)
    (w_i w_o F0 : B32.vec3) (b : spec_float) :
  B32.fsub (B32.lit 10 1)
    (B32.fmax (B32.dot w_o (B32.normalize (B32.vadd w_i w_o))) (B32.lit 0 1))
  = Some b ->
  SFltb b B32.zero = true ->
  B32.calculateFresnelSchlick pow_impl w_i w_o F0 = B32.undefined.
Proof.
  intros Hb Hneg. unfold B32.calculateFresnelSchlick. cbv zeta. rewrite Hb.
  unfold B32.fpow, B32.lit. rewrite Hneg. apply b32_vadd_vscale_undefined.
Qed.

(** C5, counterexample.  For the unit directions w_i = (0, 0, -1) and
    w_o = (0, 0, 1) there is no half-vector and F is undefined, over
    exact reals already.  In binary32, with the camera and a light at
    (0, 0, 10) and the fragment at (1, 1, 1), the directions that the
    shaders compute ([w_i] by line 97, [w_o] by line 111 from the
    normalised varying) give dot(w_o, h) = 1 + 2^-23: the base of [pow]
    is negative and F is undefined, whatever [pow] computes elsewhere. *)
Lemma fresnel_undefined_for_unit_directions :
  (rdot (0, 0, -1) (0, 0, -1) = 1 /\ rdot up up = 1 /\
   calculateFresnelSchlick (vec (0, 0, -1)) (vec up)
     (mix (splat #0.04) (vec (1, 1, 1)) #0)
   = mkvec3 None None None) /\
  (let camera := B32.ivec 0 0 10 in
   let position := B32.ivec 1 1 1 in
   let w_o := B32.normalize (B32.normalize (B32.vsub camera position)) in
   let w_i := B32.normalize (B32.vsub camera position) in
   B32.dot w_o (B32.normalize (B32.vadd w_i w_o)) = Some (B32.ofBits 0x3f800001) /\
   forall pow_impl,
     B32.calculateFresnelSchlick pow_impl w_i w_o
       (B32.mix (B32.splat (B32.lit 4 2)) (B32.ivec 1 1 1) (B32.lit 0 1))
     = B32.undefined).
Proof.
  split.
  - split; [simpl; lra | split; [apply up_unit |]].
    apply calculateFresnelSchlick_without_half_vector.
    unfold up, rzero. simpl. apply triple_ext; lra.
  - cbv zeta. split; [vm_compute; reflexivity |].
    intros pow_impl. vm_compute. reflexivity.
Qed.

(** C5, amended.  Over exact reals, for a unit view direction, any light
    direction, albedo channels in [0,1] and metallic in [0,1]: whenever
    the Fresnel weight [F = kS] that [calculateBRDF] computes from
    [F0 = mix(vec3(0.04), albedo, metallic)] is defined, it lies in [0,1]
    in every channel and the diffuse weight [(1 - F) * (1 - metallic)]
    plus the specular weight [F] is at most 1; it is defined whenever the
    half-vector exists, and undefined when it does not ([w_i + w_o = 0]).
    In binary32 F is undefined as well whenever the base [1.0 - VoH] of
    its [pow] computes to a negative number, and rounding does produce
    such a base, -2^-23, for directions that the shader has normalised:
    with camera and light at (0, 0, 10) and the fragment at (1, 1, 1),
    and for w_i = w_o = normalize((1, 1, 10)). *)
Theorem energy_conservation_bound :
  (forall (wi wo albedo : R3) (metallic : R),
      rdot wo wo = 1 ->
      channels (fun a => 0 <= a <= 1) albedo -> 0 <= metallic <= 1 ->
      (forall f : R3,
          calculateFresnelSchlick (vec wi) (vec wo)
            (mix (splat #0.04) (vec albedo) #metallic) = vec f ->
          channels (fun f => 0 <= f <= 1 /\ (1 - f) * (1 - metallic) + f <= 1) f) /\
      (radd wi wo <> rzero ->
       calculateFresnelSchlick (vec wi) (vec wo)
         (mix (splat #0.04) (vec albedo) #metallic)
       = vec (Spec.F wi wo (Spec.F0 albedo metallic)))) /\
  (forall (wi wo : R3) (F0 : vec3),
      radd wi wo = rzero ->
      calculateFresnelSchlick (vec wi) (vec wo) F0 = mkvec3 None None None) /\
  (forall (pow_impl : spec_float -> spec_float -> spec_float)
          (w_i w_o F0 : B32.vec3) (b : spec_float),
      B32.fsub (B32.lit 10 1)
        (B32.fmax (B32.dot w_o (B32.normalize (B32.vadd w_i w_o))) (B32.lit 0 1))
      = Some b ->
      SFltb b B32.zero = true ->
      B32.calculateFresnelSchlick pow_impl w_i w_o F0 = B32.undefined) /\
  (let camera := B32.ivec 0 0 10 in
   let position := B32.ivec 1 1 1 in
   let w_o := B32.normalize (B32.normalize (B32.vsub camera position)) in
   let w_i := B32.normalize (B32.vsub camera position) in
   B32.dot w_o (B32.normalize (B32.vadd w_i w_o)) = Some (B32.ofBits 0x3f800001) /\
   B32.fsub (B32.lit 10 1)
     (B32.fmax (B32.dot w_o (B32.normalize (B32.vadd w_i w_o))) (B32.lit 0 1))
   = Some (B32.ofBits 0xb4000000) /\
   SFltb (B32.ofBits 0xb4000000) B32.zero = true) /\
  (let w := B32.normalize (B32.ivec 1 1 10) in
   B32.fsub (B32.lit 10 1)
     (B32.fmax (B32.dot w (B32.normalize (B32.vadd w w))) (B32.lit 0 1))
   = Some (B32.ofBits 0xb4000000)).
Proof.
  split; [| split; [| split; [| split]]].
  - intros wi wo albedo metallic Hwo Ha Hm. split.
    + intros f Hf. rewrite mix_F0 in Hf.
      destruct (rzero_dec (radd wi wo)) as [Hz | Hnz].
      * rewrite calculateFresnelSchlick_without_half_vector in Hf by assumption.
        destruct f as [[x y] z]. discriminate Hf.
      * rewrite calculateFresnelSchlick_vec in Hf by assumption.
        assert (Hf' : f = Spec.F wi wo (Spec.F0 albedo metallic)).
        { destruct f as [[x y] z],
            (Spec.F wi wo (Spec.F0 albedo metallic)) as [[x' y'] z'].
          injection Hf as -> -> ->. reflexivity. }
        rewrite Hf'. now apply fresnel_weights_bounded.
    + intros Hh. rewrite mix_F0. now apply calculateFresnelSchlick_vec.
  - exact calculateFresnelSchlick_without_half_vector.
  - exact b32_fresnel_negative_base.
  - cbv zeta. repeat split; vm_compute; reflexivity.
  - cbv zeta. vm_compute. reflexivity.
Qed.

Lemma energy_conservation_bound_witness :
  (calculateFresnelSchlick (vec up) (vec up)
     (mix (splat #0.04) (vec (1, 0.5, 0)) #0.5)
   = vec (Spec.F up up (Spec.F0 (1, 0.5, 0) 0.5)) /\
   channels (fun f => 0 <= f <= 1 /\ (1 - f) * (1 - 0.5) + f <= 1)
            (Spec.F up up (Spec.F0 (1, 0.5, 0) 0.5))) /\
  (forall pow_impl F0,
      B32.calculateFresnelSchlick pow_impl (B32.normalize (B32.ivec 1 1 10))
        (B32.normalize (B32.ivec 1 1 10)) F0 = B32.undefined).
Proof.
  assert (Ha : channels (fun a => 0 <= a <= 1) (1, 0.5, 0)) by (simpl; lra).
  assert (Hm : 0 <= 0.5 <= 1) by lra.
  split.
  - destruct (proj1 energy_conservation_bound up up (1, 0.5, 0) 0.5 up_unit Ha Hm)
      as [Hbound Hdef].
    split; [exact (Hdef up_plus_up) | exact (Hbound _ (Hdef up_plus_up))].
  - intros pow_impl F0.
    apply (proj1 (proj2 (proj2 energy_conservation_bound)) pow_impl _ _ F0
             (B32.ofBits 0xb4000000)); vm_compute; reflexivity.
Defined.


(** ** Backface zeroing *)

Lemma vscale_zero (v : vec3) : allZeroOrUndefined (vscale v #0).
Proof.
  destruct v as [[x |] [y |] [z |]]; unfold allZeroOrUndefined, zeroOrUndefined;
    cbn; repeat split; try (now left); right; f_equal; ring.
Qed.

Lemma vscale_vec_zero (e : R3) : vscale (vec e) #0 = vec rzero.
Proof. rewrite vscale_vec. now rewrite rscale_zero. Qed.

Lemma fmax_nonpositive (d : R) : d <= 0 -> fmax #d #0.0 = #0.
Proof.
  intros Hd. rewrite fmax_def. f_equal. replace 0.0 with 0 by lra.
  apply Rmax_right. assumption.
Qed.

(** A light opposite to the view direction: the contribution is undefined. *)
Lemma calculateBRDF_opposite_view (light : PointLight) (lpos p wo : R3)
    (normal : vec3) (rough metallic : float) (albedo : vec3) :
  pos light = vec lpos -> lpos <> p -> radd (runit (rsub lpos p)) wo = rzero ->
  calculateBRDF light (vec p) normal (vec wo) rough metallic albedo
  = mkvec3 None None None.
Proof.
  intros Hl Hp Hh. unfold calculateBRDF. rewrite Hl, vsub_vec.
  rewrite normalize_vec by (intros H; apply Hp; now apply rsub_zero).
  rewrite calculateFresnelSchlick_without_half_vector by assumption.
  reflexivity.
Qed.

(** A light at (0, 0, -10) below a surface at the origin that faces up. *)
Lemma light_below_direction :
  rsub (0, 0, -10) rzero <> rzero /\ runit (rsub (0, 0, -10) rzero) = (0, 0, -1).
Proof.
  assert (Hsub : rsub (0, 0, -10) rzero = (0, 0, -10)).
  { unfold rzero. simpl. apply triple_ext; lra. }
  assert (Hn : rnorm (0, 0, -10) = 10).
  { unfold rnorm. simpl.
    replace (0 * 0 + 0 * 0 + -10 * -10) with (10 * 10) by ring.
    apply sqrt_square. lra. }
  rewrite Hsub. split; [distinct_triples |].
  unfold runit. rewrite Hn. apply triple_ext; lra.
Qed.

Lemma light_below_cosine :
  dot (vec up) (normalize (vsub (vec (0, 0, -10)) (vec rzero))) = #(-1).
Proof.
  destruct light_below_direction as [Hne Hw].
  rewrite vsub_vec, normalize_vec, dot_vec by exact Hne.
  rewrite Hw. f_equal. unfold up. simpl. lra.
Qed.

(** C4, counterexample.  A light at (0, 0, -10), behind a surface at the
    origin whose normal and view direction are (0, 0, 1): n.w_i = -1,
    the half-vector is [normalize] of the zero vector, [kS] is undefined
    and so is the contribution.  It is not zero. *)
Lemma backface_opposite_view_undefined :
  dot (vec up) (normalize (vsub (vec (0, 0, -10)) (vec rzero))) = #(-1) /\
  calculateBRDF (mkPointLight (vec (0, 0, -10)) (vec (1, 1, 1)) #2000) (vec rzero)
    (vec up) (vec up) #0.5 #0 (vec (1, 1, 1))
  = mkvec3 None None None /\
  calculateBRDF (mkPointLight (vec (0, 0, -10)) (vec (1, 1, 1)) #2000) (vec rzero)
    (vec up) (vec up) #0.5 #0 (vec (1, 1, 1))
  <> vec rzero.
Proof.
  destruct light_below_direction as [Hne Hw].
  assert (Hu : calculateBRDF (mkPointLight (vec (0, 0, -10)) (vec (1, 1, 1)) #2000)
                 (vec rzero) (vec up) (vec up) #0.5 #0 (vec (1, 1, 1))
               = mkvec3 None None None).
  { apply (calculateBRDF_opposite_view _ (0, 0, -10)); [reflexivity | |].
    - intros H. apply Hne. rewrite H. unfold rzero. simpl. apply triple_ext; lra.
    - rewrite Hw. unfold up, rzero. simpl. apply triple_ext; lra. }
  split; [exact light_below_cosine | split; [exact Hu | rewrite Hu; discriminate]].
Qed.

(** C4, amended.  If the dot product of the normal with the direction
    [w_i] to the light, as [calculateBRDF] computes it, is <= 0, the last
    factor [max(dot(normal, w_i), 0.0)] is zero, so no channel of the
    contribution is ever a non-zero value; this holds in binary32 and over
    exact reals, for every light, surface sample and material.  The
    contribution is exactly zero whenever the product of the other
    factors is defined (and, in binary32, finite).  It is undefined, not
    zero, when a factor is undefined: over exact reals for every light
    opposite to the view direction ([w_i + w_o = 0]), and in binary32 for
    the light at (0, 0, -10) seen from (0, 0, 1). *)
Theorem backface_contribution_zero :
  (forall (pow_impl : spec_float -> spec_float -> spec_float)
          (light : B32.PointLight) (position normal w_o : B32.vec3)
          (roughness metallic : B32.float) (albedo : B32.vec3) (d : spec_float),
      B32.dot normal (B32.normalize (B32.vsub (B32.pos light) position)) = Some d ->
      SFleb d B32.zero = true ->
      B32.allZeroOrUndefined
        (B32.calculateBRDF pow_impl light position normal w_o roughness metallic albedo) /\
      (forall x y z : spec_float,
          B32.brdfTimesIrradiance pow_impl light position normal w_o roughness
            metallic albedo = B32.v3 x y z ->
          B32.isFinite x = true -> B32.isFinite y = true -> B32.isFinite z = true ->
          B32.allDefinedZero
            (B32.calculateBRDF pow_impl light position normal w_o roughness metallic
               albedo))) /\
  (forall (light : PointLight) (position normal w_o : vec3)
          (roughness metallic : float) (albedo : vec3) (d : R),
      dot normal (normalize (vsub (pos light) position)) = #d -> d <= 0 ->
      allZeroOrUndefined
        (calculateBRDF light position normal w_o roughness metallic albedo) /\
      (forall e : R3,
          brdfTimesIrradiance light position normal w_o roughness metallic albedo
          = vec e ->
          calculateBRDF light position normal w_o roughness metallic albedo
          = vec rzero)) /\
  (forall (light : PointLight) (lpos p wo : R3) (normal : vec3)
          (roughness metallic : float) (albedo : vec3),
      pos light = vec lpos -> lpos <> p -> radd (runit (rsub lpos p)) wo = rzero ->
      calculateBRDF light (vec p) normal (vec wo) roughness metallic albedo
      = mkvec3 None None None) /\
  (forall pow_impl,
      B32.calculateBRDF pow_impl
        (B32.mkPointLight (B32.ivec 0 0 (-10)) (B32.ivec 1 1 1) (B32.lit 2000 0))
        (B32.ivec 0 0 0) (B32.ivec 0 0 1) (B32.ivec 0 0 1) (B32.lit 5 1) (B32.lit 0 1)
        (B32.ivec 1 1 1)
      = B32.undefined).
Proof.
  split; [| split; [| split]].
  - intros pow_impl light position normal w_o roughness metallic albedo d Hd Hle.
    destruct (b32_fmax_nonpositive d Hle) as (r & Hr & Hz).
    assert (Heq : B32.calculateBRDF pow_impl light position normal w_o roughness
                    metallic albedo
                  = B32.vscale
                      (B32.brdfTimesIrradiance pow_impl light position normal w_o
                         roughness metallic albedo) (Some r)).
    { unfold B32.calculateBRDF, B32.brdfTimesIrradiance. cbv zeta.
      now rewrite Hd, Hr. }
    rewrite Heq. split.
    + now apply b32_vscale_zero.
    + intros x y z Hv Hx Hy Hz'. rewrite Hv. now apply b32_vscale_zero_finite.
  - intros light position normal w_o roughness metallic albedo d Hd Hle.
    assert (Heq : calculateBRDF light position normal w_o roughness metallic albedo
                  = vscale (brdfTimesIrradiance light position normal w_o roughness
                              metallic albedo) #0).
    { unfold calculateBRDF, brdfTimesIrradiance. cbv zeta.
      now rewrite Hd, fmax_nonpositive. }
    rewrite Heq. split.
    + apply vscale_zero.
    + intros e He. rewrite He. apply vscale_vec_zero.
  - exact calculateBRDF_opposite_view.
  - intros pow_impl. vm_compute. reflexivity.
Qed.

Lemma backface_contribution_zero_witness :
  B32.allDefinedZero
    (B32.calculateBRDF B32.fifthPower
       (B32.mkPointLight (B32.ivec 3 0 (-4)) (B32.ivec 1 1 1) (B32.lit 2000 0))
       (B32.ivec 0 0 0) (B32.ivec 0 0 1) (B32.ivec 0 0 1) (B32.lit 5 1) (B32.lit 0 1)
       (B32.ivec 1 1 1)) /\
  allZeroOrUndefined
    (calculateBRDF (mkPointLight (vec (0, 0, -10)) (vec (1, 1, 1)) #2000) (vec rzero)
       (vec up) (vec up) #0.5 #0 (vec (1, 1, 1))).
Proof.
  split.
  - eapply (proj2 (proj1 backface_contribution_zero B32.fifthPower
                     (B32.mkPointLight (B32.ivec 3 0 (-4)) (B32.ivec 1 1 1)
                        (B32.lit 2000 0))
                     (B32.ivec 0 0 0) (B32.ivec 0 0 1) (B32.ivec 0 0 1) (B32.lit 5 1)
                     (B32.lit 0 1) (B32.ivec 1 1 1) (B32.ofBits 0xbf4ccccd) _ _));
      try (vm_compute; reflexivity).
    Unshelve. all: try (vm_compute; reflexivity).
  - apply (proj1 (proj2 backface_contribution_zero)
             (mkPointLight (vec (0, 0, -10)) (vec (1, 1, 1)) #2000) (vec rzero)
             (vec up) (vec up) #0.5 #0 (vec (1, 1, 1)) (-1));
      [exact light_below_cosine | lra].
Defined.


(** ** The light loop and [main] *)

Section LightLoop.

Variables (u : Uniforms) (v : Varyings) (normal w_o albedo : vec3).

(** With fuel for [MAX_LIGHTS - i] iterations the loop from [(i, irr)]
    adds the contributions of the lights [i .. activeCount - 1] in order:
    it does not run out of fuel. *)
Lemma lightLoop_fuel (fuel : nat) :
  forall (i : Z) (irr : vec3),
    (0 <= i)%Z -> (MAX_LIGHTS - i <= Z.of_nat fuel)%Z ->
    lightLoop fuel u v normal w_o albedo i irr
    = fold_left (fun acc light => vadd acc (evaluateLight u v normal w_o albedo light))
        (map (fun j => lightAt u (Z.of_nat j))
             (seq (Z.to_nat i) (activeCount u - Z.to_nat i)))
        irr.
Proof.
  unfold activeCount, MAX_LIGHTS.
  induction fuel as [| fuel IH]; intros i irr Hi Hfuel.
  - replace (Z.to_nat (Z.min (uLightCount u) 10) - Z.to_nat i)%nat with 0%nat by lia.
    reflexivity.
  - cbn [lightLoop]. unfold MAX_LIGHTS.
    destruct (Z.ltb_spec i 10) as [Hlt | Hge].
    + destruct (Z.geb_spec i (uLightCount u)) as [Hc | Hc].
      * replace (Z.to_nat (Z.min (uLightCount u) 10) - Z.to_nat i)%nat with 0%nat
          by lia.
        reflexivity.
      * rewrite IH by lia.
        replace (Z.to_nat (Z.min (uLightCount u) 10) - Z.to_nat i)%nat
          with (S (Z.to_nat (Z.min (uLightCount u) 10) - Z.to_nat (i + 1)))%nat
          by lia.
        cbn [seq map fold_left].
        replace (Z.to_nat (i + 1)) with (S (Z.to_nat i)) by lia.
        rewrite Z2Nat.id by assumption. reflexivity.
    + replace (Z.to_nat (Z.min (uLightCount u) 10) - Z.to_nat i)%nat with 0%nat by lia.
      reflexivity.
Qed.

Lemma firstn_seq_min (n start len : nat) :
  firstn n (seq start len) = seq start (Nat.min n len).
Proof.
  revert start len. induction n as [| n IH]; intros start [| len]; try reflexivity.
  cbn [firstn seq Nat.min]. now rewrite IH.
Qed.

Lemma firstn_lights (n : nat) :
  firstn n (Spec.lights u)
  = map (fun j => lightAt u (Z.of_nat j)) (seq 0 (Nat.min n (Z.to_nat MAX_LIGHTS))).
Proof. unfold Spec.lights. now rewrite firstn_map, firstn_seq_min. Qed.

(** The loop of [main] sums the first [uLightCount] lights of the
    sequence (all ten of them when [uLightCount] is larger). *)
Lemma lightLoop_irradiance :
  lightLoop (Z.to_nat MAX_LIGHTS) u v normal w_o albedo 0 (splat #0.0)
  = Spec.irradiance (evaluateLight u v normal w_o albedo)
      (firstn (Z.to_nat (uLightCount u)) (Spec.lights u)).
Proof.
  rewrite lightLoop_fuel by (unfold MAX_LIGHTS; lia).
  rewrite firstn_lights. unfold Spec.irradiance, activeCount.
  replace (Z.to_nat (Z.min (uLightCount u) MAX_LIGHTS) - Z.to_nat 0)%nat
    with (Nat.min (Z.to_nat (uLightCount u)) (Z.to_nat MAX_LIGHTS)) by lia.
  reflexivity.
Qed.

End LightLoop.

Lemma mainIrradiance_sum (u : Uniforms) (v : Varyings) :
  mainIrradiance u v
  = Spec.irradiance (mainEvaluate u v)
      (firstn (Z.to_nat (uLightCount u)) (Spec.lights u)).
Proof. unfold mainIrradiance. apply lightLoop_irradiance. Qed.

Lemma irradiance_ext (f g : PointLight -> vec3) (ls : list PointLight) :
  (forall light, f light = g light) -> Spec.irradiance f ls = Spec.irradiance g ls.
Proof.
  intros Hfg. unfold Spec.irradiance. generalize (splat #0.0).
  induction ls as [| light ls IH]; intros acc; [reflexivity |].
  cbn [fold_left]. now rewrite Hfg, IH.
Qed.

Lemma lights_length (u : Uniforms) : List.length (Spec.lights u) = 10%nat.
Proof. reflexivity. Qed.

(** C8.  The loop of [main] evaluates exactly the first [uLightCount]
    lights of the sequence.  With [uLightCount = 0] the irradiance before
    tone mapping is zero in every channel, whatever the arrays hold; a
    count above [MAX_LIGHTS = 10] is clamped: the ten lights of the
    sequence are evaluated and no more; and the entries of the arrays
    that belong to lights beyond the count have no effect. *)
Theorem light_count_contract :
  (forall u v,
      mainIrradiance u v
      = Spec.irradiance (mainEvaluate u v)
          (firstn (Z.to_nat (uLightCount u)) (Spec.lights u))) /\
  (forall u v, uLightCount u = 0%Z -> mainIrradiance u v = vec rzero) /\
  (forall u v,
      (MAX_LIGHTS < uLightCount u)%Z ->
      firstn (Z.to_nat (uLightCount u)) (Spec.lights u) = Spec.lights u /\
      List.length (Spec.lights u) = Z.to_nat MAX_LIGHTS /\
      mainIrradiance u v = mainIrradiance (withLightCount u MAX_LIGHTS) v) /\
  (forall u u' v,
      uMaterial u = uMaterial u' -> roughness u = roughness u' ->
      metallic u = metallic u' -> uLightCount u = uLightCount u' ->
      (forall i, (0 <= i < uLightCount u)%Z -> (i < MAX_LIGHTS)%Z ->
                 lightAt u i = lightAt u' i) ->
      mainIrradiance u v = mainIrradiance u' v).
Proof.
  split; [exact mainIrradiance_sum | split; [| split]].
  - intros u v H0. rewrite mainIrradiance_sum, H0. cbn [Z.to_nat firstn].
    unfold Spec.irradiance. cbn [fold_left]. unfold splat, vec, rzero, v3.
    replace 0.0 with 0 by lra. reflexivity.
  - intros u v Hbig.
    assert (Hall : firstn (Z.to_nat (uLightCount u)) (Spec.lights u) = Spec.lights u).
    { apply firstn_all2. rewrite lights_length. unfold MAX_LIGHTS in Hbig. lia. }
    split; [exact Hall | split; [reflexivity |]].
    rewrite !mainIrradiance_sum, Hall. reflexivity.
  - intros u u' v Hm Hr Hme Hc Hl.
    rewrite !mainIrradiance_sum, !firstn_lights, <- Hc.
    assert (Hev : forall light, mainEvaluate u v light = mainEvaluate u' v light).
    { intros light. unfold mainEvaluate, evaluateLight. now rewrite Hm, Hr, Hme. }
    assert (Hmap : map (fun j => lightAt u (Z.of_nat j))
                     (seq 0 (Nat.min (Z.to_nat (uLightCount u)) (Z.to_nat MAX_LIGHTS)))
                   = map (fun j => lightAt u' (Z.of_nat j))
                     (seq 0 (Nat.min (Z.to_nat (uLightCount u)) (Z.to_nat MAX_LIGHTS)))).
    { apply map_ext_in. intros j Hj. apply in_seq in Hj. unfold MAX_LIGHTS in *.
      apply Hl; lia. }
    rewrite Hmap. now apply irradiance_ext.
Qed.

Lemma light_count_contract_witness :
  mainIrradiance (withLightCount appUniforms 0) appVaryings = vec rzero /\
  mainIrradiance (withLightCount appUniforms 12) appVaryings
  = mainIrradiance (withLightCount (withLightCount appUniforms 12) MAX_LIGHTS)
      appVaryings.
Proof.
  destruct light_count_contract as (_ & Hzero & Hclamp & _). split.
  - apply Hzero. reflexivity.
  - apply Hclamp. reflexivity.
Defined.

(** C1.  [main] is the pipeline of the specification, step by step: the
    albedo is decoded to linear space once, the BRDF contributions of the
    first [uLightCount] lights are summed in linear space, the sum is
    tone-mapped, and the tone-mapped value is encoded once, with nothing
    encoded or decoded in between; the alpha of the output is 1.  (For a
    count within [0 .. MAX_LIGHTS], as the data model requires, the
    lights summed are exactly [uLightCount] many.) *)
Theorem main_is_shading_pipeline (u : Uniforms) (v : Varyings) :
  main u v
  = Spec.shade (vPositionWS v) (normalize (vNormalWS v)) (normalize (ViewDirectionWS v))
      (albedo (uMaterial u)) (roughness u) (metallic u)
      (firstn (Z.to_nat (uLightCount u)) (Spec.lights u)) /\
  rgb (main u v)
  = Spec.encode
      (tonemap
         (Spec.irradiance
            (fun light =>
               calculateBRDF light (vPositionWS v) (normalize (vNormalWS v))
                 (normalize (ViewDirectionWS v)) (roughness u) (metallic u)
                 (Spec.decode (albedo (uMaterial u))))
            (firstn (Z.to_nat (uLightCount u)) (Spec.lights u)))) /\
  alpha (main u v) = #1 /\
  ((0 <= uLightCount u <= MAX_LIGHTS)%Z ->
   Z.of_nat (List.length (firstn (Z.to_nat (uLightCount u)) (Spec.lights u)))
   = uLightCount u).
Proof.
  assert (Hmain : main u v
                  = Spec.shade (vPositionWS v) (normalize (vNormalWS v))
                      (normalize (ViewDirectionWS v))
                      (albedo (uMaterial u)) (roughness u) (metallic u)
                      (firstn (Z.to_nat (uLightCount u)) (Spec.lights u))).
  { unfold main. rewrite mainIrradiance_sum. reflexivity. }
  split; [exact Hmain | split; [| split]].
  - rewrite Hmain. reflexivity.
  - rewrite Hmain. unfold Spec.shade. cbn [alpha]. f_equal. lra.
  - intros Hcount. rewrite length_firstn, lights_length.
    unfold MAX_LIGHTS in Hcount. lia.
Qed.

Lemma main_is_shading_pipeline_witness :
  main appUniforms appVaryings
  = Spec.shade (vec rzero) (normalize (vec up)) (normalize (vec up))
      (vec (1, 1, 1)) #0.5 #0 (firstn 4 (Spec.lights appUniforms)) /\
  Z.of_nat (List.length (firstn 4 (Spec.lights appUniforms))) = 4%Z.
Proof.
  destruct (main_is_shading_pipeline appUniforms appVaryings) as (Hm & _ & _ & Hn).
  split; [exact Hm | apply Hn; vm_compute; split; discriminate].
Defined.

(** ** Colour space *)

Lemma decode_channel (c : R) :
  0 <= c ->
  fpow (#c *@ #0.9478672986 +@ #0.0521327014) #2.4 *@ (#1 -@ fle #c #0.04045)
  +@ #c *@ #0.0773993808 *@ fle #c #0.04045
  = #(decodeChannel c).
Proof.
  intros Hc. cbn [fmul fadd lift2]. rewrite fpow_pos by nra.
  unfold decodeChannel, fle, lift2.
  destruct (Rle_dec c 0.04045); cbn [fsub fmul fadd lift2]; f_equal; ring.
Qed.

Lemma encode_channel (c : R) :
  0 <= c ->
  (fpow #c #0.41666 *@ #1.055 -@ #0.055) *@ (#1 -@ fle #c #0.0031308)
  +@ #c *@ #12.92 *@ fle #c #0.0031308
  = #(encodeChannel c).
Proof.
  intros [Hc | <-].
  - rewrite fpow_pos by assumption. unfold encodeChannel, fle, lift2.
    destruct (Rle_dec c 0.0031308); cbn [fsub fmul fadd lift2]; f_equal; ring.
  - rewrite fpow_zero by lra. unfold encodeChannel, fle, lift2.
    destruct (Rle_dec 0 0.0031308); [| lra]. cbn [fsub fmul fadd lift2]. f_equal; ring.
Qed.

Lemma sRGBToLinear_vec (c : R3) (a : float) :
  channels (Rle 0) c ->
  sRGBToLinear (mkvec4 (vec c) a) = mkvec4 (vec (Spec.rmap decodeChannel c)) a.
Proof.
  destruct c as [[x y] z]. intros (Hx & Hy & Hz).
  unfold sRGBToLinear, vmix, vscale, ssubv, lessThanEqual, vpow.
  unfold vadd, vsub, vmul, vmap2, splat, vec, v3.
  cbn [rgb alpha vx vy vz]. now rewrite !decode_channel.
Qed.

Lemma LinearTosRGB_vec (c : R3) (a : float) :
  channels (Rle 0) c ->
  LinearTosRGB (mkvec4 (vec c) a) = mkvec4 (vec (Spec.rmap encodeChannel c)) a.
Proof.
  destruct c as [[x y] z]. intros (Hx & Hy & Hz).
  unfold LinearTosRGB, vmix, vscale, ssubv, lessThanEqual, vpow.
  unfold vadd, vsub, vmul, vmap2, splat, vec, v3.
  cbn [rgb alpha vx vy vz]. now rewrite !encode_channel.
Qed.

(** *** Bounds on real powers *)

Lemma Rpower_pos (x y : R) : 0 < Rpower x y.
Proof. unfold Rpower. apply exp_pos. Qed.

(** [q ^ (n/m) <= r] from [q ^ n <= r ^ m], and the converse bound. *)
Lemma Rpower_rat_le (q r : R) (n m : nat) :
  0 < q -> 0 < r -> (0 < m)%nat -> q ^ n <= r ^ m ->
  Rpower q (INR n / INR m) <= r.
Proof.
  intros Hq Hr Hm H.
  assert (Hm' : 0 < INR m) by now apply lt_0_INR.
  rewrite <- (Rpower_1 r Hr).
  replace 1 with (INR m * / INR m) by (field; lra).
  rewrite <- (Rpower_mult r), (Rpower_pow m r Hr).
  unfold Rdiv. rewrite <- (Rpower_mult q), (Rpower_pow n q Hq).
  apply Rle_Rpower_l.
  - apply Rlt_le, Rinv_0_lt_compat, Hm'.
  - split; [now apply pow_lt | exact H].
Qed.

Lemma Rpower_rat_ge (q r : R) (n m : nat) :
  0 < q -> 0 < r -> (0 < m)%nat -> r ^ m <= q ^ n ->
  r <= Rpower q (INR n / INR m).
Proof.
  intros Hq Hr Hm H.
  assert (Hm' : 0 < INR m) by now apply lt_0_INR.
  rewrite <- (Rpower_1 r Hr) at 1.
  replace 1 with (INR m * / INR m) by (field; lra).
  rewrite <- (Rpower_mult r), (Rpower_pow m r Hr).
  unfold Rdiv. rewrite <- (Rpower_mult q), (Rpower_pow n q Hq).
  apply Rle_Rpower_l.
  - apply Rlt_le, Rinv_0_lt_compat, Hm'.
  - split; [now apply pow_lt | exact H].
Qed.

Lemma ln_nonpos (x : R) : 0 < x <= 1 -> ln x <= 0.
Proof.
  intros [H0 [H1 | ->]]; [| rewrite ln_1; lra].
  rewrite <- ln_1. now apply Rlt_le, ln_increasing.
Qed.

(** For a base in (0,1] the power decreases with the exponent. *)
Lemma Rpower_antitone (x s t : R) :
  0 < x <= 1 -> s <= t -> Rpower x t <= Rpower x s.
Proof.
  intros Hx Hst. unfold Rpower. pose proof (ln_nonpos x Hx) as Hl.
  destruct (Req_dec (t * ln x) (s * ln x)) as [-> | Hne]; [lra |].
  apply Rlt_le, exp_increasing. nra.
Qed.

Lemma ln_le_minus_1 (x : R) : 0 < x -> ln x <= x - 1.
Proof.
  intros Hx. pose proof (exp_ineq1_le (ln x)) as H. rewrite exp_ln in H by assumption. lra.
Qed.

Lemma exp_le_inv (t : R) : t < 1 -> exp t <= / (1 - t).
Proof.
  intros Ht. pose proof (exp_ineq1_le (- t)) as H. rewrite exp_Ropp in H.
  pose proof (exp_pos t) as Hp.
  apply Rmult_le_reg_r with (1 - t); [lra |]. rewrite Rinv_l by lra.
  apply Rmult_le_reg_r with (/ exp t); [now apply Rinv_0_lt_compat |].
  rewrite Rmult_1_l. replace (exp t * (1 - t) * / exp t) with (1 - t) by (field; lra).
  lra.
Qed.

(** [x^(1-e)] for a small [e]: between [x] and [x + 2e]. *)
Lemma Rpower_near_1 (x e : R) :
  0 < x <= 1 -> 0 <= e -> 2 * e <= x ->
  x <= Rpower x (1 - e) <= x + 2 * e.
Proof.
  intros Hx He Hex. split.
  - rewrite <- (Rpower_1 x) at 1 by lra. apply Rpower_antitone; lra.
  - unfold Rminus. rewrite Rpower_plus, Rpower_1 by lra.
    assert (Hix : x * / x = 1) by (apply Rinv_r; lra).
    assert (Hip : 0 < / x) by (apply Rinv_0_lt_compat; lra).
    set (T := e * (/ x - 1)).
    assert (HxT : x * T = e * (1 - x)).
    { unfold T. replace (x * (e * (/ x - 1))) with (e * (x * / x) - e * x) by ring.
      rewrite Hix. ring. }
    assert (HT : T <= / 2).
    { apply Rmult_le_reg_l with x; [lra |]. rewrite HxT. nra. }
    assert (Hb : Rpower x (- e) <= / (1 - T)).
    { unfold Rpower.
      assert (Hl : - e * ln x <= T).
      { pose proof (ln_le_minus_1 (/ x) Hip) as H. rewrite ln_Rinv in H by lra.
        unfold T. nra. }
      eapply Rle_trans; [| apply exp_le_inv; lra].
      destruct Hl as [Hl | Hl]; [apply Rlt_le, exp_increasing; exact Hl | rewrite Hl; lra]. }
    assert (Hq : x * / (1 - T) <= x + 2 * e).
    { apply Rmult_le_reg_r with (1 - T); [lra |].
      rewrite Rmult_assoc, Rinv_l by lra.
      replace ((x + 2 * e) * (1 - T)) with (x - x * T + 2 * e * (1 - T)) by ring.
      rewrite HxT. nra. }
    pose proof (Rpower_pos x (- e)). 
    apply Rle_trans with (x * / (1 - T)); [| exact Hq].
    apply Rmult_le_compat_l; lra.
Qed.

Lemma Rpower_le_1 (x s : R) : 0 < x <= 1 -> 0 <= s -> Rpower x s <= 1.
Proof.
  intros Hx Hs. unfold Rpower. rewrite <- exp_0.
  pose proof (ln_nonpos x Hx) as Hl.
  destruct (Req_dec (s * ln x) 0) as [-> | Hne]; [lra |].
  apply Rlt_le, exp_increasing. nra.
Qed.

(** Numeric bounds at the branch points of the two transfer curves. *)
Lemma pow_0_41666_lower (x : R) : 0.0031308 <= x -> 0.09047 <= Rpower x 0.41666.
Proof.
  intros Hx.
  apply Rle_trans with (Rpower 0.0031308 0.41666); [| apply Rle_Rpower_l; lra].
  apply Rle_trans with (Rpower 0.0031308 (INR 5 / INR 12)).
  - apply Rpower_rat_ge; [lra | lra | apply Nat.lt_0_succ | lra].
  - apply Rpower_antitone; [lra | simpl; lra].
Qed.

Lemma pow_0_41666_upper (x : R) : 0 < x <= 0.0031309 -> Rpower x 0.41666 <= 0.0909.
Proof.
  intros Hx.
  apply Rle_trans with (Rpower 0.0031309 0.41666); [apply Rle_Rpower_l; lra |].
  apply Rle_trans with (Rpower 0.0031309 (INR 52 / INR 125)).
  - apply Rpower_antitone; [lra | simpl; lra].
  - apply Rpower_rat_le; [lra | lra | apply Nat.lt_0_succ | lra].
Qed.

Lemma pow_0_41666_above (x : R) : 0.0032 <= x <= 1 -> 0.0905 <= Rpower x 0.41666.
Proof.
  intros Hx.
  apply Rle_trans with (Rpower 0.0032 0.41666); [| apply Rle_Rpower_l; lra].
  apply Rle_trans with (Rpower 0.0032 (INR 5 / INR 12)).
  - apply Rpower_rat_ge; [lra | lra | apply Nat.lt_0_succ | lra].
  - apply Rpower_antitone; [lra | simpl; lra].
Qed.

Lemma pow_2_4_lower (y : R) : 0.0904739 <= y -> 0.00313 <= Rpower y 2.4.
Proof.
  intros Hy.
  apply Rle_trans with (Rpower 0.0904739 2.4); [| apply Rle_Rpower_l; lra].
  replace 2.4 with (INR 12 / INR 5) by (simpl; lra).
  apply Rpower_rat_ge; [lra | lra | apply Nat.lt_0_succ | lra].
Qed.

Lemma pow_2_4_above (y : R) : 0.0905 <= y -> 0.003131 <= Rpower y 2.4.
Proof.
  intros Hy.
  apply Rle_trans with (Rpower 0.0905 2.4); [| apply Rle_Rpower_l; lra].
  replace 2.4 with (INR 12 / INR 5) by (simpl; lra).
  apply Rpower_rat_ge; [lra | lra | apply Nat.lt_0_succ | lra].
Qed.

(** *** The two round trips, per channel *)

Lemma encode_decode_close (c : R) :
  0 <= c <= 1 -> Rabs (encodeChannel (decodeChannel c) - c) <= 0.001.
Proof.
  intros Hc. apply Rabs_le. unfold decodeChannel.
  destruct (Rle_dec c 0.04045) as [Hlow | Hhigh].
  - unfold encodeChannel.
    destruct (Rle_dec (c * 0.0773993808) 0.0031308) as [Hd | Hd]; [lra |].
    assert (Hx : 0.0031308 <= c * 0.0773993808 <= 0.0031309) by lra.
    pose proof (pow_0_41666_lower _ (proj1 Hx)) as Hl.
    assert (Hx' : 0 < c * 0.0773993808 <= 0.0031309) by lra.
    pose proof (pow_0_41666_upper _ Hx') as Hu. lra.
  - set (y := c * 0.9478672986 + 0.0521327014).
    assert (Hy : 0.0904739 <= y <= 1) by (unfold y; lra).
    unfold encodeChannel.
    destruct (Rle_dec (Rpower y 2.4) 0.0031308) as [Hd | Hd].
    + pose proof (pow_2_4_lower y (proj1 Hy)) as Hl.
      assert (Hyu : y < 0.0905).
      { destruct (Rlt_le_dec y 0.0905) as [H | H]; [exact H |].
        pose proof (pow_2_4_above y H). lra. }
      unfold y in Hyu. lra.
    + rewrite Rpower_mult.
      replace (2.4 * 0.41666) with (1 - 0.000016) by lra.
      assert (Hy' : 0 < y <= 1) by lra.
      destruct (Rpower_near_1 y 0.000016 Hy') as [Hl Hu]; try lra.
      unfold y in *. lra.
Qed.

Lemma decode_encode_close (x : R) :
  0 <= x <= 1 -> Rabs (decodeChannel (encodeChannel x) - x) <= 0.001.
Proof.
  intros Hx. apply Rabs_le. unfold encodeChannel.
  destruct (Rle_dec x 0.0031308) as [Hlow | Hhigh].
  - unfold decodeChannel.
    destruct (Rle_dec (x * 12.92) 0.04045) as [He | He]; lra.
  - set (w := Rpower x 0.41666).
    assert (Hx' : 0.0031308 <= x) by lra.
    pose proof (pow_0_41666_lower x Hx') as Hwl. fold w in Hwl.
    assert (Hwu : w <= 1) by (apply Rpower_le_1; lra).
    unfold decodeChannel.
    destruct (Rle_dec (w * 1.055 - 0.055) 0.04045) as [He | He].
    + assert (Hxu : x < 0.0032).
      { destruct (Rlt_le_dec x 0.0032) as [H | H]; [exact H |].
        assert (H' : 0.0032 <= x <= 1) by lra.
        pose proof (pow_0_41666_above x H') as Ha. fold w in Ha. lra. }
      lra.
    + set (z := (w * 1.055 - 0.055) * 0.9478672986 + 0.0521327014).
      assert (Hzw : w * (1 - 0.000000001) <= z <= w) by (unfold z; lra).
      assert (Hx1 : 0 < x <= 1) by lra.
      assert (Hw24 : Rpower w 2.4 = Rpower x (1 - 0.000016)).
      { unfold w. rewrite Rpower_mult. f_equal. lra. }
      destruct (Rpower_near_1 x 0.000016 Hx1) as [Hl Hu]; try lra.
      rewrite <- Hw24 in Hl, Hu.
      assert (Hup : Rpower z 2.4 <= Rpower w 2.4) by (apply Rle_Rpower_l; lra).
      assert (Hlo : Rpower w 2.4 * (1 - 0.000000003) <= Rpower z 2.4).
      { apply Rle_trans with (Rpower (w * (1 - 0.000000001)) 2.4);
          [| apply Rle_Rpower_l; lra].
        rewrite <- Rpower_mult_distr by lra.
        apply Rmult_le_compat_l; [apply Rlt_le, Rpower_pos |].
        apply Rle_trans with (Rpower (1 - 0.000000001) (INR 3)).
        - rewrite Rpower_pow by lra. lra.
        - apply Rpower_antitone; [lra | simpl; lra]. }
      pose proof (Rpower_pos w 2.4). nra.
Qed.

Lemma encode_decode_inexact : encodeChannel (decodeChannel 0.01) <> 0.01.
Proof.
  unfold decodeChannel. destruct (Rle_dec 0.01 0.04045); [| lra].
  unfold encodeChannel. destruct (Rle_dec (0.01 * 0.0773993808) 0.0031308); lra.
Qed.

(** [x^(1-e)] lies above [x] by at least [x * e * (1 - x)]. *)
Lemma Rpower_above_base (x e : R) :
  0 < x <= 1 -> 0 <= e -> x * (1 + e * (1 - x)) <= Rpower x (1 - e).
Proof.
  intros Hx He. unfold Rminus at 2. rewrite Rpower_plus, Rpower_1 by lra.
  apply Rmult_le_compat_l; [lra |]. unfold Rpower.
  pose proof (ln_le_minus_1 x (proj1 Hx)) as Hl.
  pose proof (exp_ineq1_le (- e * ln x)) as Hexp. nra.
Qed.

(** On the power segment the round trip overshoots: at 0.5 by about 4e-6. *)
Lemma encode_decode_above_half : 0.5 < encodeChannel (decodeChannel 0.5).
Proof.
  unfold decodeChannel. destruct (Rle_dec 0.5 0.04045) as [H | _]; [lra |].
  set (y := 0.5 * 0.9478672986 + 0.0521327014).
  assert (Hy : 0.0905 <= y) by (unfold y; lra).
  pose proof (pow_2_4_above y Hy) as Hp.
  unfold encodeChannel. destruct (Rle_dec (Rpower y 2.4) 0.0031308) as [H | _]; [lra |].
  rewrite Rpower_mult. replace (2.4 * 0.41666) with (1 - 0.000016) by lra.
  assert (Hy1 : 0 < y <= 1) by (unfold y; lra).
  assert (He : 0 <= 0.000016) by lra.
  pose proof (Rpower_above_base y 0.000016 Hy1 He) as Hb.
  unfold y in *. nra.
Qed.

Lemma decodeChannel_nonneg (c : R) : 0 <= c -> 0 <= decodeChannel c.
Proof.
  intros Hc. unfold decodeChannel. destruct (Rle_dec c 0.04045); [lra |].
  apply Rlt_le, Rpower_pos.
Qed.

Lemma encodeChannel_nonneg (c : R) : 0 <= c -> 0 <= encodeChannel c.
Proof.
  intros Hc. unfold encodeChannel. destruct (Rle_dec c 0.0031308) as [H | H]; [lra |].
  assert (H' : 0.0031308 <= c) by lra. pose proof (pow_0_41666_lower c H'). lra.
Qed.

(** C9.  For an RGB triple with all channels in [0,1] (and any alpha,
    which both functions pass through) [LinearTosRGB (sRGBToLinear c)] and
    [sRGBToLinear (LinearTosRGB c)] are defined and within 0.001 of [c] in
    every channel; the round trip is not exact, neither on the linear
    segment (at 0.01) nor on the fitted power segment (at 0.5). *)
Theorem color_space_round_trip (c : R3) (a : float) :
  channels (fun x => 0 <= x <= 1) c ->
  LinearTosRGB (sRGBToLinear (mkvec4 (vec c) a))
  = mkvec4 (vec (Spec.rmap (fun x => encodeChannel (decodeChannel x)) c)) a /\
  sRGBToLinear (LinearTosRGB (mkvec4 (vec c) a))
  = mkvec4 (vec (Spec.rmap (fun x => decodeChannel (encodeChannel x)) c)) a /\
  channels2 (fun x y => Rabs (y - x) <= 0.001) c
    (Spec.rmap (fun x => encodeChannel (decodeChannel x)) c) /\
  channels2 (fun x y => Rabs (y - x) <= 0.001) c
    (Spec.rmap (fun x => decodeChannel (encodeChannel x)) c) /\
  LinearTosRGB (sRGBToLinear (mkvec4 (vec (0.01, 0.01, 0.01)) a))
  <> mkvec4 (vec (0.01, 0.01, 0.01)) a /\
  LinearTosRGB (sRGBToLinear (mkvec4 (vec (0.5, 0.5, 0.5)) a))
  <> mkvec4 (vec (0.5, 0.5, 0.5)) a.
Proof.
  destruct c as [[x y] z]. intros (Hx & Hy & Hz).
  split; [| split; [| split; [| split; [| split]]]].
  - rewrite sRGBToLinear_vec by (simpl; lra).
    rewrite LinearTosRGB_vec; [reflexivity |].
    simpl. repeat split; apply decodeChannel_nonneg; lra.
  - rewrite LinearTosRGB_vec by (simpl; lra).
    rewrite sRGBToLinear_vec; [reflexivity |].
    simpl. repeat split; apply encodeChannel_nonneg; lra.
  - simpl. repeat split; now apply encode_decode_close.
  - simpl. repeat split; now apply decode_encode_close.
  - rewrite sRGBToLinear_vec by (simpl; lra).
    rewrite LinearTosRGB_vec
      by (simpl; repeat split; apply decodeChannel_nonneg; lra).
    simpl. intros H. injection H as H _ _. now apply encode_decode_inexact.
  - rewrite sRGBToLinear_vec by (simpl; lra).
    rewrite LinearTosRGB_vec
      by (simpl; repeat split; apply decodeChannel_nonneg; lra).
    simpl. intros H. injection H as H _ _.
    pose proof encode_decode_above_half. lra.
Qed.

Lemma color_space_round_trip_witness :
  channels2 (fun x y => Rabs (y - x) <= 0.001) (0, 0.5, 1)
    (Spec.rmap (fun x => encodeChannel (decodeChannel x)) (0, 0.5, 1)).
Proof.
  assert (H : channels (fun x => 0 <= x <= 1) (0, 0.5, 1)) by (simpl; lra).
  exact (proj1 (proj2 (proj2 (color_space_round_trip (0, 0.5, 1) #1 H)))).
Defined.

(** ** The end-to-end scenario *)

Lemma lightAbove_distance : rnorm (rsub lightAbove rzero) = 5.
Proof.
  unfold lightAbove, rzero. simpl rsub.
  replace (0 - 0) with 0 by ring. replace (5 - 0) with 5 by ring.
  apply rnorm_axis. lra.
Qed.

(** A white dielectric of roughness 0.5 lit head-on by the white light of
    intensity 2000 at distance 5 reflects [20 / 3.14159^2] (about 2.03)
    in every channel: diffuse [0.96 / pi] plus specular [0.04 / pi],
    times the irradiance [20 / pi]. *)
Example calculateBRDF_end_to_end :
  calculateBRDF (mkPointLight (vec lightAbove) (vec (1, 1, 1)) #2000) (vec rzero)
    (vec up) (vec up) #0.5 #0 (vec (1, 1, 1))
  = splat #(20 / (Spec.pi * Spec.pi)).
Proof.
  assert (Hr : 0 < 0.5) by lra. destruct (head_on_defined 0.5 Hr) as [Hd Hg].
  rewrite calculateBRDF_vec; rewrite ?lightAbove_direction;
    try assumption; try apply up_unit; try apply up_plus_up; try apply lightAbove_apart.
  unfold Spec.evaluate, Spec.irradianceAt, Spec.specular, Spec.F, Spec.F0, Spec.D,
    Spec.Dden, Spec.G, Spec.G1, Spec.G1den, Spec.k.
  rewrite lightAbove_direction, lightAbove_distance, runit_up_plus_up, up_unit.
  rewrite (Rmax_left 1 0) by lra. rewrite Rmax_left by (unfold Spec.eps; lra).
  unfold Spec.pi, splat, vec, v3. simpl. f_equal; apply f_equal; lra.
Qed.

(** The first light that the application uploads, and a slot beyond the
    uploaded ones, which reads the default 0 of the uniform arrays. *)
Example lightAt_first :
  lightAt appUniforms 0 = mkPointLight (vec (-10, 10, 10)) (vec (1, 1, 1)) #2000.
Proof. reflexivity. Qed.

Example lightAt_unset_slot :
  lightAt appUniforms 5 = mkPointLight (vec rzero) (vec rzero) #0.
Proof. reflexivity. Qed.

(** With no active light [main] writes opaque black. *)
Example main_without_lights :
  main (withLightCount appUniforms 0) appVaryings = mkvec4 (vec rzero) #1.
Proof.
  unfold main. rewrite mainIrradiance_sum.
  replace (Spec.irradiance (mainEvaluate (withLightCount appUniforms 0) appVaryings)
             (firstn (Z.to_nat (uLightCount (withLightCount appUniforms 0)))
                (Spec.lights (withLightCount appUniforms 0))))
    with (vec rzero)
    by (unfold Spec.irradiance, vec, rzero, v3, splat; cbn; replace 0.0 with 0 by lra;
        reflexivity).
  rewrite tonemap_vec by (simpl; lra).
  assert (H0 : Spec.reinhard 0 = 0) by (unfold Spec.reinhard; lra).
  unfold rzero. cbn [Spec.rmap]. rewrite H0.
  rewrite LinearTosRGB_vec by (simpl; lra).
  assert (He : encodeChannel 0 = 0).
  { unfold encodeChannel. destruct (Rle_dec 0 0.0031308); lra. }
  cbn [Spec.rmap]. rewrite He. do 2 f_equal. lra.
Qed.

(** * Further properties of the shaders and of the driver *)

(** ** Metallic edge cases *)

(** X4.  A dielectric ([metallic = 0]) has the base reflectance 0.04
    whatever its albedo, and a metal ([metallic = 1]) has its albedo as
    base reflectance and no diffuse term: wherever it is defined its
    contribution is [F * specular * irradiance * max(n.w_i, 0)]. *)
Theorem metallic_edge_cases (lcolor : R3) (li : R) (lpos p n wo : R3)
    (rough : R) (albedo : R3) :
  let wi := runit (rsub lpos p) in
  mix (splat #0.04) (vec albedo) #0 = vec (0.04, 0.04, 0.04) /\
  mix (splat #0.04) (vec albedo) #1 = vec albedo /\
  (lpos <> p -> rdot wo wo = 1 -> radd wi wo <> rzero ->
   Spec.Dden n (runit (radd wi wo)) rough <> 0 ->
   Spec.G1den n wi (Spec.k rough) <> 0 -> Spec.G1den n wo (Spec.k rough) <> 0 ->
   calculateBRDF (mkPointLight (vec lpos) (vec lcolor) #li) (vec p) (vec n) (vec wo)
     #rough #1 (vec albedo)
   = vec (rscale (rmul (rscale (Spec.F wi wo albedo) (Spec.specular n wi wo rough))
                       (Spec.irradianceAt lcolor li lpos p))
                 (Rmax (rdot n wi) 0))).
Proof.
  intros wi.
  assert (H0 : Spec.F0 albedo 0 = (0.04, 0.04, 0.04)).
  { destruct albedo as [[x y] z]. simpl. triple_eq; lra. }
  assert (H1 : Spec.F0 albedo 1 = albedo).
  { destruct albedo as [[x y] z]. simpl. triple_eq; lra. }
  split; [| split].
  - now rewrite mix_F0, H0.
  - now rewrite mix_F0, H1.
  - intros Hp Hwo Hh Hd Hi Ho. rewrite calculateBRDF_vec by assumption.
    unfold Spec.evaluate. fold wi. rewrite H1. f_equal. f_equal. f_equal.
    destruct (Spec.F wi wo albedo) as [[fx fy] fz], albedo as [[x y] z].
    set (s := Spec.specular n wi wo rough). simpl. triple_eq; ring.
Qed.

Lemma metallic_edge_cases_witness :
  calculateBRDF (mkPointLight (vec lightAbove) (vec (1, 1, 1)) #2000) (vec rzero)
    (vec up) (vec up) #0.5 #1 (vec (1, 0.5, 0))
  = vec (rscale (rmul (rscale (Spec.F (runit (rsub lightAbove rzero)) up (1, 0.5, 0))
                         (Spec.specular up (runit (rsub lightAbove rzero)) up 0.5))
                      (Spec.irradianceAt (1, 1, 1) 2000 lightAbove rzero))
                (Rmax (rdot up (runit (rsub lightAbove rzero))) 0)).
Proof.
  assert (Hr : 0 < 0.5) by lra. destruct (head_on_defined 0.5 Hr) as [Hd Hg].
  assert (Hh : radd (runit (rsub lightAbove rzero)) up <> rzero)
    by (rewrite lightAbove_direction; apply up_plus_up).
  assert (Hd' : Spec.Dden up (runit (radd (runit (rsub lightAbove rzero)) up)) 0.5 <> 0)
    by (rewrite lightAbove_direction; exact Hd).
  assert (Hi : Spec.G1den up (runit (rsub lightAbove rzero)) (Spec.k 0.5) <> 0)
    by (rewrite lightAbove_direction; exact Hg).
  exact (proj2 (proj2 (metallic_edge_cases (1, 1, 1) 2000 lightAbove rzero up up 0.5
                         (1, 0.5, 0)))
           lightAbove_apart up_unit Hh Hd' Hi Hg).
Defined.

(** ** Linearity of a light's contribution *)

Lemma brdf_defined (lpos p n wo : R3) (rough : R) :
  let wi := runit (rsub lpos p) in
  lpos <> p -> rdot n n = 1 -> rdot wo wo = 1 -> radd wi wo <> rzero -> 0 < rough ->
  Spec.Dden n (runit (radd wi wo)) rough <> 0 /\
  Spec.G1den n wi (Spec.k rough) <> 0 /\ Spec.G1den n wo (Spec.k rough) <> 0.
Proof.
  intros wi Hp Hn Hwo Hh Hr.
  assert (Hne : rsub lpos p <> rzero).
  { intros H. apply Hp. now apply rsub_zero. }
  pose proof (runit_unit _ Hne) as Hwi. fold wi in Hwi.
  pose proof (runit_unit _ Hh) as Hu.
  repeat split; by_positivity;
    [now apply Dden_pos | now apply G1den_pos | now apply G1den_pos].
Qed.

Lemma lightAbove_half_vector : radd (runit (rsub lightAbove rzero)) up <> rzero.
Proof. rewrite lightAbove_direction. apply up_plus_up. Qed.

Lemma irradianceAt_scale (lcolor : R3) (li s : R) (lpos p : R3) :
  Spec.irradianceAt lcolor (s * li) lpos p
  = rscale (Spec.irradianceAt lcolor li lpos p) s.
Proof.
  unfold Spec.irradianceAt. set (d := rnorm (rsub lpos p)).
  destruct lcolor as [[x y] z]. simpl. unfold Rdiv. triple_eq; ring.
Qed.

Lemma irradianceAt_scale_color (lcolor : R3) (li s : R) (lpos p : R3) :
  Spec.irradianceAt (rscale lcolor s) li lpos p
  = rscale (Spec.irradianceAt lcolor li lpos p) s.
Proof.
  unfold Spec.irradianceAt. set (d := rnorm (rsub lpos p)).
  destruct lcolor as [[x y] z]. simpl. unfold Rdiv. triple_eq; ring.
Qed.

Lemma evaluate_scale (irr : R3) (a : R3) (c s : R) :
  rscale (rmul a (rscale irr s)) c = rscale (rscale (rmul a irr) c) s.
Proof.
  destruct a as [[x y] z], irr as [[x' y'] z']. simpl. triple_eq; ring.
Qed.

(** X6.  The contribution of a light is linear in the light: scaling its
    intensity, or its colour, by [s] scales the contribution by [s]
    wherever the contribution is defined. *)
Theorem light_contribution_linear (lcolor : R3) (li : R) (lpos p n wo : R3)
    (rough metallic : R) (albedo : R3) (s : R) :
  let wi := runit (rsub lpos p) in
  lpos <> p -> rdot wo wo = 1 -> radd wi wo <> rzero ->
  Spec.Dden n (runit (radd wi wo)) rough <> 0 ->
  Spec.G1den n wi (Spec.k rough) <> 0 -> Spec.G1den n wo (Spec.k rough) <> 0 ->
  calculateBRDF (mkPointLight (vec lpos) (vec lcolor) #(s * li)) (vec p) (vec n)
    (vec wo) #rough #metallic (vec albedo)
  = vec (rscale (Spec.evaluate lcolor li lpos p n wo rough metallic albedo) s) /\
  calculateBRDF (mkPointLight (vec lpos) (vec (rscale lcolor s)) #li) (vec p) (vec n)
    (vec wo) #rough #metallic (vec albedo)
  = vec (rscale (Spec.evaluate lcolor li lpos p n wo rough metallic albedo) s) /\
  calculateBRDF (mkPointLight (vec lpos) (vec lcolor) #li) (vec p) (vec n)
    (vec wo) #rough #metallic (vec albedo)
  = vec (Spec.evaluate lcolor li lpos p n wo rough metallic albedo).
Proof.
  intros wi Hp Hwo Hh Hd Hi Ho.
  rewrite !calculateBRDF_vec by assumption. unfold Spec.evaluate.
  rewrite irradianceAt_scale, irradianceAt_scale_color, !evaluate_scale.
  repeat split; reflexivity.
Qed.

Lemma light_contribution_linear_witness :
  calculateBRDF (mkPointLight (vec lightAbove) (vec (1, 1, 1)) #(2 * 2000)) (vec rzero)
    (vec up) (vec up) #0.5 #0 (vec (1, 1, 1))
  = vec (rscale (Spec.evaluate (1, 1, 1) 2000 lightAbove rzero up up 0.5 0 (1, 1, 1)) 2).
Proof.
  assert (Hr : 0 < 0.5) by lra.
  destruct (brdf_defined lightAbove rzero up up 0.5 lightAbove_apart up_unit up_unit
              lightAbove_half_vector Hr) as (Hd & Hi & Ho).
  exact (proj1 (light_contribution_linear (1, 1, 1) 2000 lightAbove rzero up up 0.5 0
                  (1, 1, 1) 2 lightAbove_apart up_unit lightAbove_half_vector Hd Hi Ho)).
Defined.

(** ** Transfer curves *)

Lemma Rpower_base_1 (y : R) : Rpower 1 y = 1.
Proof. unfold Rpower. rewrite ln_1, Rmult_0_r. apply exp_0. Qed.

Lemma decodeChannel_mono (a b : R) :
  0 <= a -> a <= b -> decodeChannel a <= decodeChannel b.
Proof.
  intros Ha Hab. unfold decodeChannel.
  destruct (Rle_dec a 0.04045) as [Hla | Hla], (Rle_dec b 0.04045) as [Hlb | Hlb];
    try lra.
  - apply Rle_trans with 0.00313080495336; [lra |].
    apply Rle_trans with (Rpower 0.09047393362837 2.4); [| apply Rle_Rpower_l; lra].
    replace 2.4 with (INR 12 / INR 5) by (simpl; lra).
    apply Rpower_rat_ge; [lra | lra | apply Nat.lt_0_succ | lra].
  - apply Rle_Rpower_l; lra.
Qed.

Lemma pow_0_41666_threshold (x : R) :
  0.0031308 <= x -> 0.0904739 <= Rpower x 0.41666.
Proof.
  intros Hx.
  apply Rle_trans with (Rpower 0.0031308 0.41666); [| apply Rle_Rpower_l; lra].
  replace 0.41666 with (INR 5 / INR 12 + - (1 / 150000)) by (simpl; lra).
  rewrite Rpower_plus.
  assert (H1 : 0.0904738 <= Rpower 0.0031308 (INR 5 / INR 12)).
  { apply Rpower_rat_ge; [lra | lra | apply Nat.lt_0_succ | lra]. }
  assert (H2 : 1 + 0.0000066 <= Rpower 0.0031308 (- (1 / 150000))).
  { unfold Rpower.
    assert (Hp : 0 < 0.0031308) by lra.
    pose proof (ln_le_minus_1 0.0031308 Hp) as Hl.
    pose proof (exp_ineq1_le (- (1 / 150000) * ln 0.0031308)) as He. lra. }
  nra.
Qed.

Lemma encodeChannel_mono (a b : R) :
  0 <= a -> a <= b -> encodeChannel a <= encodeChannel b.
Proof.
  intros Ha Hab. unfold encodeChannel.
  destruct (Rle_dec a 0.0031308) as [Hla | Hla], (Rle_dec b 0.0031308) as [Hlb | Hlb];
    try lra.
  - assert (Hb : 0.0031308 <= b) by lra.
    pose proof (pow_0_41666_threshold b Hb). lra.
  - assert (Rpower a 0.41666 <= Rpower b 0.41666) by (apply Rle_Rpower_l; lra). lra.
Qed.

Lemma decodeChannel_ends : decodeChannel 0 = 0 /\ decodeChannel 1 = 1.
Proof.
  unfold decodeChannel. split.
  - destruct (Rle_dec 0 0.04045); lra.
  - destruct (Rle_dec 1 0.04045); [lra |].
    replace (1 * 0.9478672986 + 0.0521327014) with 1 by lra. apply Rpower_base_1.
Qed.

Lemma encodeChannel_ends : encodeChannel 0 = 0 /\ encodeChannel 1 = 1.
Proof.
  unfold encodeChannel. split.
  - destruct (Rle_dec 0 0.0031308); lra.
  - destruct (Rle_dec 1 0.0031308); [lra |]. rewrite Rpower_base_1. lra.
Qed.

(** X9.  [sRGBToLinear] passes alpha through, fixes 0 and 1, is
    non-decreasing in every channel, also across the branch point
    0.04045, and so maps colours of [0,1]^3 to colours of [0,1]^3. *)
Theorem sRGBToLinear_monotone (c c' : R3) (a : float) :
  channels (Rle 0) c -> channels2 Rle c c' -> channels (fun x => x <= 1) c' ->
  sRGBToLinear (mkvec4 (vec c) a) = mkvec4 (vec (Spec.rmap decodeChannel c)) a /\
  sRGBToLinear (mkvec4 (vec c') a) = mkvec4 (vec (Spec.rmap decodeChannel c')) a /\
  channels2 Rle (Spec.rmap decodeChannel c) (Spec.rmap decodeChannel c') /\
  channels (fun x => 0 <= x <= 1) (Spec.rmap decodeChannel c) /\
  sRGBToLinear (mkvec4 (vec rzero) a) = mkvec4 (vec rzero) a /\
  sRGBToLinear (mkvec4 (vec (1, 1, 1)) a) = mkvec4 (vec (1, 1, 1)) a.
Proof.
  destruct decodeChannel_ends as [D0 D1].
  destruct c as [[x y] z], c' as [[x' y'] z'].
  intros (Hx & Hy & Hz) (Hx' & Hy' & Hz') (Hx1 & Hy1 & Hz1).
  assert (Hb : forall t, 0 <= t <= 1 -> 0 <= decodeChannel t <= 1).
  { intros t Ht. split; [apply decodeChannel_nonneg; lra |].
    rewrite <- D1. apply decodeChannel_mono; lra. }
  split; [apply sRGBToLinear_vec; simpl; lra |].
  split; [apply sRGBToLinear_vec; simpl; lra |].
  split; [simpl; repeat split; apply decodeChannel_mono; lra |].
  split; [simpl; repeat split; apply Hb; lra |].
  split.
  - rewrite sRGBToLinear_vec by (simpl; lra). unfold rzero. simpl. now rewrite D0.
  - rewrite sRGBToLinear_vec by (simpl; lra). simpl. now rewrite D1.
Qed.

Lemma sRGBToLinear_monotone_witness :
  channels2 Rle (Spec.rmap decodeChannel (0, 0.04, 0.5))
    (Spec.rmap decodeChannel (0.04, 0.05, 1)).
Proof.
  assert (H0 : channels (Rle 0) (0, 0.04, 0.5)) by (simpl; lra).
  assert (H1 : channels2 Rle (0, 0.04, 0.5) (0.04, 0.05, 1)) by (simpl; lra).
  assert (H2 : channels (fun x => x <= 1) (0.04, 0.05, 1)) by (simpl; lra).
  exact (proj1 (proj2 (proj2 (sRGBToLinear_monotone _ _ #1 H0 H1 H2)))).
Defined.

(** X10.  [LinearTosRGB] passes alpha through, fixes 0 and 1, is
    non-decreasing in every channel, also across the branch point
    0.0031308, and so maps colours of [0,1]^3 to colours of [0,1]^3. *)
Theorem LinearTosRGB_monotone (c c' : R3) (a : float) :
  channels (Rle 0) c -> channels2 Rle c c' -> channels (fun x => x <= 1) c' ->
  LinearTosRGB (mkvec4 (vec c) a) = mkvec4 (vec (Spec.rmap encodeChannel c)) a /\
  LinearTosRGB (mkvec4 (vec c') a) = mkvec4 (vec (Spec.rmap encodeChannel c')) a /\
  channels2 Rle (Spec.rmap encodeChannel c) (Spec.rmap encodeChannel c') /\
  channels (fun x => 0 <= x <= 1) (Spec.rmap encodeChannel c) /\
  LinearTosRGB (mkvec4 (vec rzero) a) = mkvec4 (vec rzero) a /\
  LinearTosRGB (mkvec4 (vec (1, 1, 1)) a) = mkvec4 (vec (1, 1, 1)) a.
Proof.
  destruct encodeChannel_ends as [E0 E1].
  destruct c as [[x y] z], c' as [[x' y'] z'].
  intros (Hx & Hy & Hz) (Hx' & Hy' & Hz') (Hx1 & Hy1 & Hz1).
  assert (Hb : forall t, 0 <= t <= 1 -> 0 <= encodeChannel t <= 1).
  { intros t Ht. split; [apply encodeChannel_nonneg; lra |].
    rewrite <- E1. apply encodeChannel_mono; lra. }
  split; [apply LinearTosRGB_vec; simpl; lra |].
  split; [apply LinearTosRGB_vec; simpl; lra |].
  split; [simpl; repeat split; apply encodeChannel_mono; lra |].
  split; [simpl; repeat split; apply Hb; lra |].
  split.
  - rewrite LinearTosRGB_vec by (simpl; lra). unfold rzero. simpl. now rewrite E0.
  - rewrite LinearTosRGB_vec by (simpl; lra). simpl. now rewrite E1.
Qed.

Lemma LinearTosRGB_monotone_witness :
  channels2 Rle (Spec.rmap encodeChannel (0, 0.003, 0.5))
    (Spec.rmap encodeChannel (0.003, 0.004, 1)).
Proof.
  assert (H0 : channels (Rle 0) (0, 0.003, 0.5)) by (simpl; lra).
  assert (H1 : channels2 Rle (0, 0.003, 0.5) (0.003, 0.004, 1)) by (simpl; lra).
  assert (H2 : channels (fun x => x <= 1) (0.003, 0.004, 1)) by (simpl; lra).
  exact (proj1 (proj2 (proj2 (LinearTosRGB_monotone _ _ #1 H0 H1 H2)))).
Defined.

(** ** From irradiance to the display colour *)

Lemma display_vec (c : R3) :
  channels (Rle 0) c ->
  LinearTosRGB (mkvec4 (tonemap (vec c)) #1.0)
  = mkvec4 (vec (Spec.rmap (fun x => encodeChannel (Spec.reinhard x)) c)) #1.0.
Proof.
  intros Hc. destruct c as [[x y] z]. destruct Hc as (Hx & Hy & Hz).
  rewrite tonemap_vec by (simpl; lra).
  rewrite LinearTosRGB_vec; [reflexivity |].
  simpl. repeat split; apply reinhard_bounds; assumption.
Qed.

(** ** The light loop, light by light *)

Lemma irradiance_snoc (f : PointLight -> vec3) (ls : list PointLight) (l : PointLight) :
  Spec.irradiance f (ls ++ [l]) = vadd (Spec.irradiance f ls) (f l).
Proof. unfold Spec.irradiance. now rewrite fold_left_app. Qed.

(** X12.  Activating one more light, within the ten slots, adds exactly
    the contribution of that light to the irradiance: the loop sums the
    lights in index order and nothing else. *)
Theorem one_more_light_adds_its_contribution (u : Uniforms) (v : Varyings) (n : Z) :
  (0 <= n < MAX_LIGHTS)%Z ->
  mainIrradiance (withLightCount u (n + 1)) v
  = vadd (mainIrradiance (withLightCount u n) v) (mainEvaluate u v (lightAt u n)).
Proof.
  intros Hn. unfold MAX_LIGHTS in Hn. rewrite !mainIrradiance_sum.
  change (Spec.lights (withLightCount u (n + 1))) with (Spec.lights u).
  change (Spec.lights (withLightCount u n)) with (Spec.lights u).
  change (mainEvaluate (withLightCount u (n + 1)) v) with (mainEvaluate u v).
  change (mainEvaluate (withLightCount u n) v) with (mainEvaluate u v).
  cbn [withLightCount uLightCount]. rewrite !firstn_lights.
  replace (Nat.min (Z.to_nat (n + 1)) (Z.to_nat MAX_LIGHTS)) with (S (Z.to_nat n))
    by (unfold MAX_LIGHTS; lia).
  replace (Nat.min (Z.to_nat n) (Z.to_nat MAX_LIGHTS)) with (Z.to_nat n)
    by (unfold MAX_LIGHTS; lia).
  rewrite seq_S, map_app. cbn [map Nat.add]. rewrite irradiance_snoc.
  now rewrite Z2Nat.id by lia.
Qed.

Lemma one_more_light_adds_its_contribution_witness :
  mainIrradiance (withLightCount appUniforms (3 + 1)) appVaryings
  = vadd (mainIrradiance (withLightCount appUniforms 3) appVaryings)
         (mainEvaluate appUniforms appVaryings (lightAt appUniforms 3)).
Proof.
  apply one_more_light_adds_its_contribution. unfold MAX_LIGHTS. lia.
Defined.

(** X13.  With a light count of zero or less the loop body never runs
    and [main] writes opaque black, whatever the other uniforms and the
    varyings hold (even undefined ones). *)
Theorem no_active_light_opaque_black (u : Uniforms) (v : Varyings) :
  (uLightCount u <= 0)%Z ->
  mainIrradiance u v = vec rzero /\ main u v = mkvec4 (vec rzero) #1.
Proof.
  intros Hc.
  assert (Hirr : mainIrradiance u v = vec rzero).
  { rewrite mainIrradiance_sum.
    replace (Z.to_nat (uLightCount u)) with 0%nat by lia.
    unfold Spec.irradiance, vec, rzero, v3, splat. cbn [firstn fold_left].
    replace 0.0 with 0 by lra. reflexivity. }
  split; [exact Hirr |].
  unfold main. rewrite Hirr, display_vec by (simpl; lra).
  destruct encodeChannel_ends as [E0 _].
  assert (H0 : Spec.reinhard 0 = 0) by (unfold Spec.reinhard; lra).
  unfold rzero. cbn [Spec.rmap]. rewrite H0, E0. do 2 f_equal. lra.
Qed.

Lemma no_active_light_opaque_black_witness :
  main (withLightCount appUniforms (-1)) appVaryings = mkvec4 (vec rzero) #1.
Proof.
  apply (no_active_light_opaque_black (withLightCount appUniforms (-1)) appVaryings).
  cbn. lia.
Defined.

(** ** The vertex shader *)

(** A matrix of real entries times a vector of real entries. *)
Lemma mat4mulv_real (c0 c1 c2 c3 : R3) (w0 w1 w2 w3 : R) (a : R3) (w : R) :
  mat4mulv (mkmat4 (vec4r c0 w0) (vec4r c1 w1) (vec4r c2 w2) (vec4r c3 w3)) (vec4r a w)
  = vec4r (radd (radd (radd (rscale c0 (fst (fst a))) (rscale c1 (snd (fst a))))
                      (rscale c2 (snd a)))
                (rscale c3 w))
          (w0 * fst (fst a) + w1 * snd (fst a) + w2 * snd a + w3 * w).
Proof.
  destruct c0 as [[x0 y0] z0], c1 as [[x1 y1] z1], c2 as [[x2 y2] z2],
    c3 as [[x3 y3] z3], a as [[x y] z].
  reflexivity.
Qed.

Lemma translation_point (t a : R3) :
  mat4mulv (translation t) (vec4r a 1) = vec4r (radd a t) 1.
Proof.
  unfold translation. rewrite mat4mulv_real.
  destruct t as [[tx ty] tz], a as [[x y] z]. unfold vec4r. simpl.
  unfold v3. f_equal; [f_equal |]; apply f_equal; ring.
Qed.

Lemma translation_direction (t a : R3) :
  mat4mulv (translation t) (vec4r a 0) = vec4r a 0.
Proof.
  unfold translation. rewrite mat4mulv_real.
  destruct t as [[tx ty] tz], a as [[x y] z]. unfold vec4r. simpl.
  unfold v3. f_equal; [f_equal |]; apply f_equal; ring.
Qed.

Lemma vec4r_decimal (a : R3) : mkvec4 (vec a) #1.0 = vec4r a 1 /\ mkvec4 (vec a) #0.0 = vec4r a 0.
Proof. unfold vec4r. split; do 2 f_equal; lra. Qed.

(** X15.  Under a model matrix that is a translation by [t], as the
    driver builds for every sphere, the vertex shader moves the position
    by [t], leaves the normal's direction untouched (the translation does
    not leak into normals), and points the view direction from the moved
    vertex to the camera. *)
Theorem vertex_translation (camera : Vertex.Camera) (t position normal cam : R3) :
  Vertex.pos camera = vec cam ->
  let out := Vertex.main camera (Vertex.mkModel (translation t)) (vec position)
               (vec normal) in
  Vertex.vPositionWS out = vec (radd position t) /\
  Vertex.vNormalWS out = normalize (vec normal) /\
  Vertex.ViewDirectionWS out = normalize (vec (rsub cam (radd position t))) /\
  (normal <> rzero -> Vertex.vNormalWS out = vec (runit normal)) /\
  (cam <> radd position t ->
   Vertex.ViewDirectionWS out = vec (runit (rsub cam (radd position t)))).
Proof.
  intros Hcam out. subst out. unfold Vertex.main.
  cbn [Vertex.vPositionWS Vertex.vNormalWS Vertex.ViewDirectionWS Vertex.LS_to_WS].
  destruct (vec4r_decimal position) as [Hp1 _].
  destruct (vec4r_decimal normal) as [_ Hn0].
  destruct (vec4r_decimal cam) as [Hc1 _].
  rewrite Hcam, Hp1, Hn0, Hc1, translation_point, translation_direction.
  assert (Hview : rgb (vec4sub (vec4r cam 1) (vec4r (radd position t) 1))
                  = vec (rsub cam (radd position t))).
  { unfold vec4sub, vec4r. cbn [rgb]. apply vsub_vec. }
  rewrite Hview. unfold vec4r. cbn [rgb].
  repeat split; try reflexivity.
  - intros Hn. now apply normalize_vec.
  - intros Hc. apply normalize_vec. intros H. apply Hc. now apply rsub_zero.
Qed.

Lemma vertex_translation_witness :
  Vertex.vPositionWS
    (Vertex.main (Vertex.mkCamera (translation rzero) (vec (0, 0, 18)))
       (Vertex.mkModel (translation (1, 2, 0))) (vec up) (vec up))
  = vec (radd up (1, 2, 0)).
Proof.
  exact (proj1 (vertex_translation
                  (Vertex.mkCamera (translation rzero) (vec (0, 0, 18)))
                  (1, 2, 0) up up (0, 0, 18) eq_refl)).
Defined.

Lemma rmat_mulv (c0 c1 c2 c3 : R3 * R) (a : R3) (w : R) :
  mat4mulv (rmat c0 c1 c2 c3) (vec4r a w)
  = vec4r (radd (radd (radd (rscale (fst c0) (fst (fst a)))
                            (rscale (fst c1) (snd (fst a))))
                      (rscale (fst c2) (snd a)))
                (rscale (fst c3) w))
          (snd c0 * fst (fst a) + snd c1 * snd (fst a) + snd c2 * snd a + snd c3 * w).
Proof. unfold rmat. apply mat4mulv_real. Qed.

Lemma vec4r_eq (a b : R3) (w w' : R) : a = b -> w = w' -> vec4r a w = vec4r b w'.
Proof. now intros -> ->. Qed.

(** X16.  For model and camera matrices of real entries the clip-space
    position is the world-to-clip matrix applied to the world position
    that the shader also hands to the fragment stage: multiplying the two
    matrices first, as the source does, gives the same point. *)
Theorem clip_position_of_world_position (a0 a1 a2 a3 b0 b1 b2 b3 : R3 * R)
    (cam normal : vec3) (position : R3) :
  let out := Vertex.main (Vertex.mkCamera (rmat a0 a1 a2 a3) cam)
               (Vertex.mkModel (rmat b0 b1 b2 b3)) (vec position) normal in
  Vertex.gl_Position out
  = mat4mulv (rmat a0 a1 a2 a3) (mat4mulv (rmat b0 b1 b2 b3) (vec4r position 1)) /\
  Vertex.vPositionWS out = rgb (mat4mulv (rmat b0 b1 b2 b3) (vec4r position 1)).
Proof.
  intros out. subst out. unfold Vertex.main.
  cbn [Vertex.gl_Position Vertex.vPositionWS Vertex.WS_to_CS Vertex.LS_to_WS].
  destruct (vec4r_decimal position) as [Hp1 _]. rewrite Hp1.
  split; [| reflexivity].
  unfold mat4mul. rewrite (rmat_mulv b0 b1 b2 b3 position 1).
  change (col0 (rmat b0 b1 b2 b3)) with (vec4r (fst b0) (snd b0)).
  change (col1 (rmat b0 b1 b2 b3)) with (vec4r (fst b1) (snd b1)).
  change (col2 (rmat b0 b1 b2 b3)) with (vec4r (fst b2) (snd b2)).
  change (col3 (rmat b0 b1 b2 b3)) with (vec4r (fst b3) (snd b3)).
  rewrite !rmat_mulv.
  change (mkmat4 (vec4r ?x0 ?w0) (vec4r ?x1 ?w1) (vec4r ?x2 ?w2) (vec4r ?x3 ?w3))
    with (rmat (x0, w0) (x1, w1) (x2, w2) (x3, w3)).
  rewrite !rmat_mulv. cbn [fst snd].
  destruct a0 as [[[a0x a0y] a0z] a0w], a1 as [[[a1x a1y] a1z] a1w],
    a2 as [[[a2x a2y] a2z] a2w], a3 as [[[a3x a3y] a3z] a3w],
    b0 as [[[b0x b0y] b0z] b0w], b1 as [[[b1x b1y] b1z] b1w],
    b2 as [[[b2x b2y] b2z] b2w], b3 as [[[b3x b3y] b3z] b3w],
    position as [[x y] z].
  cbn [fst snd rscale radd]. apply vec4r_eq; [triple_eq |]; ring.
Qed.

(** ** The driver's light arrays *)


Lemma setIndex_app (pre l : list R) (j : nat) (x : R) :
  App.setIndex (pre ++ l) (List.length pre + j) x = pre ++ App.setIndex l j x.
Proof. induction pre as [| a pre IH]; [reflexivity |]. cbn. now rewrite IH. Qed.

Lemma setIndex_three (pre rest : list R) (n : nat) (a b c x y z : R) :
  List.length pre = (n * 3)%nat ->
  App.setIndex
    (App.setIndex (App.setIndex (pre ++ a :: b :: c :: rest) (n * 3) x) (n * 3 + 1) y)
    (n * 3 + 2) z
  = pre ++ x :: y :: z :: rest.
Proof.
  intros <-. rewrite <- (Nat.add_0_r (List.length pre)) at 1.
  now rewrite !setIndex_app.
Qed.

Lemma setIndex_one (pre rest : list R) (n : nat) (a x : R) :
  List.length pre = n -> App.setIndex (pre ++ a :: rest) n x = pre ++ x :: rest.
Proof.
  intros <-. rewrite <- (Nat.add_0_r (List.length pre)). now rewrite setIndex_app.
Qed.


Lemma forEachFrom_fills (lights : list App.PointLight) :
  forall (k : nat) (pp pc pi : list R),
    List.length pp = (k * 3)%nat -> List.length pc = (k * 3)%nat -> List.length pi = k ->
    App.forEachFrom lights k
      (pp ++ App.newFloat32Array (List.length lights * 3),
       pc ++ App.newFloat32Array (List.length lights * 3),
       pi ++ App.newFloat32Array (List.length lights))
    = (pp ++ flat_map (fun l => triple (App.positionWS l)) lights,
       pc ++ flat_map (fun l => triple (App.color l)) lights,
       pi ++ map App.intensity lights).
Proof.
  induction lights as [| light lights IH]; intros k pp pc pi Hp Hc Hi.
  - reflexivity.
  - cbn [App.forEachFrom List.length flat_map map]. unfold App.newFloat32Array in *.
    cbn [Nat.mul Nat.add repeat]. unfold App.storeLight.
    rewrite !setIndex_three, setIndex_one by assumption.
    assert (Hcons3 : forall (pre rest : list R) (a : R3),
              pre ++ App.at0 a :: App.at1 a :: App.at2 a :: rest
              = (pre ++ triple a) ++ rest)
      by (intros; now rewrite <- app_assoc).
    assert (Hcons1 : forall (pre rest : list R) (x : R),
              pre ++ x :: rest = (pre ++ [x]) ++ rest)
      by (intros; now rewrite <- app_assoc).
    rewrite !Hcons3, (Hcons1 pi).
    rewrite (IH (S k)) by (rewrite length_app; cbn; lia).
    now rewrite <- !app_assoc.
Qed.

Lemma lightArrays_flat (lights : list App.PointLight) :
  App.lightArrays lights
  = (flat_map (fun l => triple (App.positionWS l)) lights,
     flat_map (fun l => triple (App.color l)) lights,
     map App.intensity lights).
Proof.
  unfold App.lightArrays. apply (forEachFrom_fills lights 0 [] [] []); reflexivity.
Qed.

Lemma nth_flat_triple (f : App.PointLight -> R3) (lights : list App.PointLight) :
  forall (i j : nat) (d : R),
    (j < 3)%nat ->
    nth (i * 3 + j) (flat_map (fun l => triple (f l)) lights) d
    = match nth_error lights i with
      | Some light => nth j (triple (f light)) d
      | None => d
      end.
Proof.
  induction lights as [| light lights IH]; intros i j d Hj.
  - destruct i, (_ + j)%nat; reflexivity.
  - destruct i as [| i].
    + cbn [Nat.mul Nat.add nth_error flat_map]. unfold triple at 1. cbn [app].
      destruct j as [| [| [| j]]]; try reflexivity. lia.
    + cbn [nth_error flat_map]. unfold triple at 1. cbn [app].
      replace (S i * 3 + j)%nat with (S (S (S (i * 3 + j)))) by lia.
      cbn [nth]. now apply IH.
Qed.

Lemma arrayGet_in (size : Z) (arr : list float) (k : Z) :
  (0 <= k < size)%Z -> arrayGet size arr k = nth (Z.to_nat k) arr #0.
Proof.
  intros [H0 H1]. unfold arrayGet.
  destruct (Z.leb_spec 0 k); [| lia]. destruct (Z.ltb_spec k size); [| lia].
  reflexivity.
Qed.

Lemma arrayGet_uploaded (size : Z) (arr : list R) (k : nat) :
  (Z.of_nat k < size)%Z -> arrayGet size (map Some arr) (Z.of_nat k) = #(nth k arr 0).
Proof.
  intros Hk. rewrite arrayGet_in by lia. rewrite Nat2Z.id.
  change (#0) with (Some 0). apply (map_nth Some).
Qed.

(** The light that the shader reads in slot [i] of what the driver
    uploaded: the driver's light [i], or the zero light beyond them. *)
Lemma lightAt_uploaded (gui : R3) (lights : list App.PointLight)
    (props : Z -> Z -> App.SphereProperties) (r c : Z) (i : nat) :
  (i < 10)%nat ->
  lightAt (App.uniformsAt gui lights props r c) (Z.of_nat i)
  = match nth_error lights i with
    | Some light => shaderLight light
    | None => mkPointLight (vec rzero) (vec rzero) #0
    end.
Proof.
  intros Hi. unfold App.uniformsAt. rewrite lightArrays_flat. unfold lightAt.
  cbn [uLightPositions uLightColors uLightIntensities]. unfold MAX_LIGHTS.
  replace (Z.of_nat i * 3)%Z with (Z.of_nat (i * 3 + 0)) by lia.
  replace (Z.of_nat (i * 3 + 0) + 1)%Z with (Z.of_nat (i * 3 + 1)) by lia.
  replace (Z.of_nat (i * 3 + 0) + 2)%Z with (Z.of_nat (i * 3 + 2)) by lia.
  rewrite !arrayGet_uploaded by lia.
  rewrite !nth_flat_triple by lia.
  assert (Hint : nth i (map App.intensity lights) 0
                 = match nth_error lights i with
                   | Some light => App.intensity light
                   | None => 0
                   end).
  { clear Hi. revert i. induction lights as [| l ls IH]; intros [| i]; try reflexivity.
    cbn. apply IH. }
  rewrite Hint. destruct (nth_error lights i) as [light |]; [| reflexivity].
  unfold shaderLight. destruct light as [[[px py] pz] [[cx cy] cz] li]. reflexivity.
Qed.

Lemma map_nth_error_seq {A B : Type} (f : A -> B) (g : nat -> B) (l : list A) :
  forall start,
    (forall i a, nth_error l i = Some a -> g (start + i)%nat = f a) ->
    map g (seq start (List.length l)) = map f l.
Proof.
  induction l as [| a l IH]; intros start H; [reflexivity |].
  cbn [List.length seq map]. f_equal.
  - rewrite <- (H 0%nat a eq_refl). f_equal. lia.
  - apply IH. intros i b Hb. rewrite <- (H (S i) b Hb). f_equal. lia.
Qed.

(** X18.  What [render] uploads is what the shader reads back: the
    light count is the number of lights of the driver; slot [i] of the
    shader, for [i] below 10, is the driver's light [i]; a slot beyond
    the driver's lights reads as the zero light; and the lights that the
    loop of [main] sums are the first ten lights of the driver, in their
    order (lights after the tenth are dropped). *)
Theorem uploaded_lights_round_trip (gui : R3) (lights : list App.PointLight)
    (props : Z -> Z -> App.SphereProperties) (r c : Z) :
  uLightCount (App.uniformsAt gui lights props r c) = Z.of_nat (List.length lights) /\
  (forall i light,
      (i < 10)%nat -> nth_error lights i = Some light ->
      lightAt (App.uniformsAt gui lights props r c) (Z.of_nat i) = shaderLight light) /\
  (forall i,
      (List.length lights <= i < 10)%nat ->
      lightAt (App.uniformsAt gui lights props r c) (Z.of_nat i)
      = mkPointLight (vec rzero) (vec rzero) #0) /\
  firstn (Z.to_nat (uLightCount (App.uniformsAt gui lights props r c)))
    (Spec.lights (App.uniformsAt gui lights props r c))
  = map shaderLight (firstn 10 lights).
Proof.
  assert (Hcount : uLightCount (App.uniformsAt gui lights props r c)
                   = Z.of_nat (List.length lights)).
  { unfold App.uniformsAt. rewrite lightArrays_flat. reflexivity. }
  split; [exact Hcount | split; [| split]].
  - intros i light Hi Hl. rewrite lightAt_uploaded by assumption. now rewrite Hl.
  - intros i Hi. rewrite lightAt_uploaded by lia.
    assert (Hnone : nth_error lights i = None) by (apply nth_error_None; lia).
    now rewrite Hnone.
  - rewrite Hcount, Nat2Z.id, firstn_lights.
    replace (Nat.min (List.length lights) (Z.to_nat MAX_LIGHTS))
      with (List.length (firstn 10 lights))
      by (rewrite length_firstn; unfold MAX_LIGHTS; lia).
    apply map_nth_error_seq. intros i light Hl. cbn [Nat.add].
    assert (Hi : (i < 10)%nat).
    { assert (H : (i < List.length (firstn 10 lights))%nat)
        by (apply nth_error_Some; congruence).
      rewrite length_firstn in H. lia. }
    rewrite lightAt_uploaded by assumption.
    assert (Hl' : nth_error lights i = Some light).
    { rewrite nth_error_firstn in Hl.
      destruct (Nat.ltb_spec i 10); [exact Hl | lia]. }
    now rewrite Hl'.
Qed.


(** The light arrays of [appUniforms] are the ones that [render] builds
    from the four lights of the constructor. *)
Example initial_lights_uploaded (gui : R3) (props : Z -> Z -> App.SphereProperties)
    (r c : Z) :
  let u := App.uniformsAt gui App.initialLights props r c in
  uLightCount u = uLightCount appUniforms /\
  uLightPositions u = uLightPositions appUniforms /\
  uLightColors u = uLightColors appUniforms /\
  uLightIntensities u = uLightIntensities appUniforms.
Proof.
  cbv zeta. unfold App.uniformsAt. rewrite lightArrays_flat.
  unfold appUniforms, App.initialLights, triple, App.at0, App.at1, App.at2.
  cbn [uLightCount uLightPositions uLightColors uLightIntensities flat_map map app
       App.positionWS App.color App.intensity fst snd List.length].
  repeat split; repeat (f_equal; try lra).
Qed.

(** ** The grid of spheres *)

Lemma IZR_grid (n : Z) : (0 <= n < 5)%Z -> 0 <= IZR n <= 4.
Proof. intros [H0 H1]. split; [now apply IZR_le | apply IZR_le; lia]. Qed.

(** X19.  The table of sphere properties that the constructor builds
    stays within the ranges of the GUI's sliders: on the 5 x 5 grid the
    roughness lies in [0.01, 1], from 0.01 in column 0 to 1 in column 4,
    and the metallic in [0, 1], from 0 in row 0 to 1 in row 4, each
    strictly increasing.  At a draw call [render] uploads whatever the
    table holds for the sphere at that time. *)
Theorem sphere_grid_properties (r c : Z) :
  (0 <= r < App.rows)%Z -> (0 <= c < App.columns)%Z ->
  let initial := App.initialSphereProperties in
  0.01 <= App.roughness (initial r c) <= 1 /\
  0 <= App.metallic (initial r c) <= 1 /\
  (forall c', (c < c')%Z -> App.roughness (initial r c) < App.roughness (initial r c')) /\
  (forall r', (r < r')%Z -> App.metallic (initial r c) < App.metallic (initial r' c)) /\
  (App.roughness (initial r 0%Z) = 0.01 /\ App.roughness (initial r 4%Z) = 1 /\
   App.metallic (initial 0%Z c) = 0 /\ App.metallic (initial 4%Z c) = 1) /\
  (forall (gui : R3) (lights : list App.PointLight)
          (props : Z -> Z -> App.SphereProperties),
      roughness (App.uniformsAt gui lights props r c) = #(App.roughness (props r c)) /\
      metallic (App.uniformsAt gui lights props r c) = #(App.metallic (props r c))).
Proof.
  intros Hr Hc initial. subst initial.
  pose proof (IZR_grid r Hr) as Hr'. pose proof (IZR_grid c Hc) as Hc'.
  unfold App.initialSphereProperties, App.rows, App.columns.
  cbn [App.roughness App.metallic]. simpl.
  split; [lra | split; [lra | split; [| split; [| split]]]].
  - intros c' Hlt. apply IZR_lt in Hlt. lra.
  - intros r' Hlt. apply IZR_lt in Hlt. lra.
  - repeat split; lra.
  - intros gui lights props. unfold App.uniformsAt. rewrite lightArrays_flat.
    split; reflexivity.
Qed.

Lemma sphere_grid_properties_witness :
  0.01 <= App.roughness (App.initialSphereProperties 4 0) <= 1 /\
  0 <= App.metallic (App.initialSphereProperties 4 0) <= 1.
Proof.
  assert (Hr : (0 <= 4 < App.rows)%Z) by (unfold App.rows; lia).
  assert (Hc : (0 <= 0 < App.columns)%Z) by (unfold App.columns; lia).
  pose proof (sphere_grid_properties 4 0 Hr Hc) as (Hrough & Hmet & _).
  exact (conj Hrough Hmet).
Defined.


Lemma sphereTranslation_closed (radius : R) (r c : Z) :
  App.sphereTranslation radius r c
  = (IZR (c - 2) * (2.5 * radius), IZR (r - 2) * (2.5 * radius), 0).
Proof.
  unfold App.sphereTranslation, App.rows, App.columns. cbv zeta.
  rewrite !minus_IZR. triple_eq; lra.
Qed.

(** The square of a non-zero integer is at least 1. *)
Lemma IZR_square_ge_1 (n : Z) : n <> 0%Z -> 1 <= IZR n * IZR n.
Proof.
  intros Hn. rewrite <- mult_IZR. apply IZR_le. nia.
Qed.

(** X20.  The grid of spheres is centred on the origin and symmetric
    about it, neighbouring cells are [2.5 * radius] apart along each
    axis, and the centres of any two different cells are at least
    [2.5 * radius] apart, more than the diameter: spheres of that radius
    never overlap. *)
Theorem sphere_grid_placement (radius : R) (r c r' c' : Z) :
  0 < radius -> (r, c) <> (r', c') ->
  let centre := App.sphereTranslation radius in
  centre 2%Z 2%Z = rzero /\
  centre (4 - r)%Z (4 - c)%Z = rscale (centre r c) (-1) /\
  centre r (c + 1)%Z = radd (centre r c) (2.5 * radius, 0, 0) /\
  centre (r + 1)%Z c = radd (centre r c) (0, 2.5 * radius, 0) /\
  2 * radius < 2.5 * radius <= rnorm (rsub (centre r c) (centre r' c')).
Proof.
  intros Hrad Hne centre. subst centre. rewrite !sphereTranslation_closed.
  split; [| split; [| split; [| split]]].
  - unfold rzero. simpl. apply triple_ext; lra.
  - rewrite !minus_IZR. simpl. apply triple_ext; lra.
  - rewrite !minus_IZR, plus_IZR. simpl. apply triple_ext; lra.
  - rewrite !minus_IZR, plus_IZR. simpl. apply triple_ext; lra.
  - split; [lra |].
    set (s := 2.5 * radius). assert (Hs : 0 < s) by (unfold s; lra).
    apply Rle_trans with (sqrt (s * s)); [rewrite sqrt_square; lra |].
    unfold rnorm. apply sqrt_le_1_alt.
    simpl. rewrite !minus_IZR.
    set (dc := IZR c - IZR c'). set (dr := IZR r - IZR r').
    replace ((IZR c - 2) * s - (IZR c' - 2) * s) with (dc * s) by (unfold dc; ring).
    replace ((IZR r - 2) * s - (IZR r' - 2) * s) with (dr * s) by (unfold dr; ring).
    assert (Hsq : 1 <= dc * dc + dr * dr).
    { assert (Hc0 : 0 <= dc * dc) by nra. assert (Hr0 : 0 <= dr * dr) by nra.
      destruct (Z.eq_dec c c') as [Ec | Ec].
      - assert (Er : (r - r')%Z <> 0%Z) by (intros E; apply Hne; f_equal; lia).
        pose proof (IZR_square_ge_1 _ Er) as H. rewrite minus_IZR in H.
        fold dr in H. lra.
      - assert (Ec' : (c - c')%Z <> 0%Z) by lia.
        pose proof (IZR_square_ge_1 _ Ec') as H. rewrite minus_IZR in H.
        fold dc in H. lra. }
    assert (Hss : 0 <= s * s) by nra.
    pose proof (Rmult_le_compat_r (s * s) _ _ Hss Hsq) as H. lra.
Qed.

Lemma sphere_grid_placement_witness :
  2 * 0.5 < 2.5 * 0.5
  <= rnorm (rsub (App.sphereTranslation 0.5 0 0) (App.sphereTranslation 0.5 0 1)).
Proof.
  assert (Hrad : 0 < 0.5) by lra.
  assert (Hne : (0%Z, 0%Z) <> (0%Z, 1%Z)) by discriminate.
  exact (proj2 (proj2 (proj2 (proj2
           (sphere_grid_placement 0.5 0 0 0 1 Hrad Hne))))).
Defined.
